(** * Khmer math limit solver: the crop, encode, solve and history pipeline

  A shallow embedding of [src/App.tsx] and [src/services/geminiService.ts].
  React state is an explicit record, every handler is a function from
  state to state, and what the browser or the remote model answers is an
  argument of the handler that awaits it. *)

From Stdlib Require Import ZArith NArith QArith Lia.
From Stdlib Require Import Ascii String.
From stdpp Require Import base option list gmap.

Local Open Scope nat_scope.

(** ** JavaScript strings

  A JavaScript string is a sequence of UTF-16 code units: [length] counts
  code units, and [split], [includes], [replace] and [trim] work on them. *)

Abbreviation jsstring := (list N).

Module Js.

(** A supplementary code point as its surrogate pair. *)
Definition surrogates (cp : N) : jsstring :=
  let v := (cp - 65536)%N in
  [(55296 + N.shiftr v 10)%N; (56320 + N.land v 1023)%N].

(** The bits a UTF-8 continuation byte carries. *)
Definition cont (b : N) : N := N.land b 63.

(** The code units of a UTF-8 byte sequence: how a string literal of the
    source files, which are UTF-8, reads in JavaScript. *)
Fixpoint utf16_of_utf8 (bytes : list N) : jsstring :=
  match bytes with
  | [] => []
  | b :: rest =>
      if (b <? 128)%N then b :: utf16_of_utf8 rest
      else if (b <? 224)%N then
        match rest with
        | b2 :: r =>
            (N.shiftl (N.land b 31) 6 + cont b2)%N :: utf16_of_utf8 r
        | [] => [65533%N]
        end
      else if (b <? 240)%N then
        match rest with
        | b2 :: b3 :: r =>
            (N.shiftl (N.land b 15) 12 + N.shiftl (cont b2) 6 + cont b3)%N
              :: utf16_of_utf8 r
        | _ => [65533%N]
        end
      else
        match rest with
        | b2 :: b3 :: b4 :: r =>
            surrogates (N.shiftl (N.land b 7) 18 + N.shiftl (cont b2) 12
                        + N.shiftl (cont b3) 6 + cont b4)
              ++ utf16_of_utf8 r
        | _ => [65533%N]
        end
  end.

(** A string literal of the source as code units. *)
Definition lit (s : string) : jsstring :=
  utf16_of_utf8 (List.map N_of_ascii (list_ascii_of_string s)).

(** [!!s]: every string is truthy except the empty one. *)
Definition truthy (s : jsstring) : bool :=
  match s with [] => false | _ :: _ => true end.

(** [a || b] where [a] may be [undefined] (or [null]). *)
Definition or_ (a b : option jsstring) : option jsstring :=
  match a with
  | Some s => if truthy s then Some s else b
  | None => b
  end.

(** [(a || b)] when [b] is a string literal: the result is a string. *)
Definition or_lit (a : option jsstring) (b : jsstring) : jsstring :=
  match a with
  | Some s => if truthy s then s else b
  | None => b
  end.

(** [s.split(sep)] for a one-code-unit separator; never the empty array. *)
Fixpoint split (sep : N) (s : jsstring) : list jsstring :=
  match s with
  | [] => [[]]
  | c :: rest =>
      if (c =? sep)%N then [] :: split sep rest
      else match split sep rest with
           | l :: ls => (c :: l) :: ls
           | [] => [[c]]
           end
  end.

(** [s.includes(c)] for a one-code-unit needle. *)
Definition includes (c : N) (s : jsstring) : bool :=
  existsb (N.eqb c) s.

(** [arr.find(p)]: the first element satisfying [p], or [undefined]. *)
Definition find {A} (p : A -> bool) (arr : list A) : option A :=
  List.find p arr.

(** ECMAScript WhiteSpace and LineTerminator code points, all of them in
    the Basic Multilingual Plane: what [trim] removes. *)
Definition is_space (c : N) : bool :=
  ((c =? 9) || (c =? 10) || (c =? 11) || (c =? 12) || (c =? 13)
   || (c =? 32) || (c =? 160) || (c =? 5760)
   || ((8192 <=? c) && (c <=? 8202))
   || (c =? 8232) || (c =? 8233) || (c =? 8239) || (c =? 8287)
   || (c =? 12288) || (c =? 65279))%N.

Fixpoint trimStart (s : jsstring) : jsstring :=
  match s with
  | c :: rest => if is_space c then trimStart rest else s
  | [] => []
  end.

Definition trimEnd (s : jsstring) : jsstring :=
  rev (trimStart (rev s)).

Definition trim (s : jsstring) : jsstring :=
  trimEnd (trimStart s).

(** [s.replace(/[...]/g, '')] for a class of single code units. *)
Definition remove_class (cls : N -> bool) (s : jsstring) : jsstring :=
  List.filter (fun c => negb (cls c)) s.

(** [lines.join(sep)], the inverse of [split]. *)
Fixpoint join (sep : N) (ls : list jsstring) : jsstring :=
  match ls with
  | [] => []
  | [l] => l
  | l :: rest => l ++ sep :: join sep rest
  end.

End Js.

(** ** Snippet extraction ([extractSnippet], inside [handleSolve]) *)

Module Snippet.

Definition LF : N := 10.
Definition DOLLAR : N := 36.

(** The character class of [/[\*\`\_#]/g]. *)
Definition is_markup (c : N) : bool :=
  ((c =? 42) || (c =? 96) || (c =? 95) || (c =? 35))%N.

Definition placeholder : jsstring := Js.lit "Problem".

Arguments placeholder : simpl never.

(** [line => line.includes('$') && line.length < 100] *)
Definition qualifies (line : jsstring) : bool :=
  Js.includes DOLLAR line && (length line <? 100).

(** [snippetLine.replace(/[\*\`\_#]/g, '').trim()] *)
Definition clean (snippetLine : jsstring) : jsstring :=
  Js.trim (Js.remove_class is_markup snippetLine).

Definition extractSnippet (solutionText : jsstring) : jsstring :=
  let lines := Js.split LF solutionText in
  let snippetLine :=
    Js.or_lit (Js.or_ (Js.find qualifies lines) (lines !! 0)) placeholder in
  clean snippetLine.

(** What the code selects before cleaning, as a relation on the lines:
    the first qualifying line; else the first line unless it is empty;
    else the placeholder. *)
Inductive selects (lines : list jsstring) : jsstring -> Prop :=
| sel_qualifying pre l post :
    lines = pre ++ l :: post ->
    Forall (fun x => qualifies x = false) pre ->
    qualifies l = true ->
    selects lines l
| sel_first_line l0 rest :
    lines = l0 :: rest ->
    Forall (fun x => qualifies x = false) lines ->
    l0 <> [] ->
    selects lines l0
| sel_placeholder rest :
    lines = [] :: rest ->
    Forall (fun x => qualifies x = false) lines ->
    selects lines placeholder.

(** The fallback order in the specification's words: the placeholder is
    for the empty text, the first line for every other text without a
    qualifying line. *)
Inductive selects_as_specified (text : jsstring) : jsstring -> Prop :=
| spec_qualifying pre l post :
    Js.split LF text = pre ++ l :: post ->
    Forall (fun x => qualifies x = false) pre ->
    qualifies l = true ->
    selects_as_specified text l
| spec_first_line l0 rest :
    Js.split LF text = l0 :: rest ->
    Forall (fun x => qualifies x = false) (Js.split LF text) ->
    text <> [] ->
    selects_as_specified text l0
| spec_placeholder :
    text = [] ->
    selects_as_specified text placeholder.

End Snippet.

(** ** Promises

    What an awaited call comes to: it resolves with a value or rejects
    with what was thrown. [instanceof Error] tells the two kinds of thrown
    value apart. *)

Inductive Thrown :=
| ThrownError (message : jsstring)
| ThrownOther.

Inductive Settled (A : Type) :=
| Resolved (value : A)
| Rejected (reason : Thrown).

Arguments Resolved {A} value.
Arguments Rejected {A} reason.

(** ** The solver service ([src/services/geminiService.ts]) *)

Module Gemini.

Record InlineData := { inline_mimeType : jsstring; inline_data : jsstring }.

Inductive Part :=
| ImagePart (inlineData : InlineData)
| TextPart (text : jsstring).

Record Request := { model : jsstring; parts : list Part }.

(** The response of [generateContent]. Its [text] is a string, or
    [undefined] when the response holds no text (a blocked prompt, say). *)
Record Response := { text : option jsstring }.

(** The remote model: whatever [ai.models.generateContent] settles to. *)
Definition RemoteModel := Request -> Settled Response.

Definition prompt : jsstring := Js.lit
"វិភាគលំហាត់លីមីតគណិតវិទ្យានៅក្នុងរូបភាពនេះ។ នៅលើបន្ទាត់ទីមួយ សូមសរសេរតែលំហាត់ដើមជាទម្រង់ LaTeX នៅក្នុង Markdown heading level 2 (ឧទាហរណ៍៖ ## $\lim_{x \to 1} \frac{x^2-1}{x-1}$)។ បន្ទាប់មក ចាប់ផ្តើមបន្ទាត់ថ្មីមួយទៀត រួចផ្តល់ដំណោះស្រាយលម្អិតមួយជំហានម្តងៗ ដោយពន្យល់ពីជំហាននីមួយៗឱ្យបានច្បាស់លាស់។ បញ្ចប់ដោយចម្លើយចុងក្រោយ។ សូមសរសេរចម្លើយទាំងមូលជាភាសាខ្មែរ។ ប្រើប្រាស់ Markdown សម្រាប់ធ្វើការរចនា និងប្រើវាក្យសម្ព័ន្ធ LaTeX សម្រាប់កន្សោមគណិតវិទ្យា។

**CRITICAL RENDERING RULES (MUST FOLLOW):**
1.  **NEVER use raw Unicode characters for math symbols.** For example, NEVER type '≠', '→', or '∞' directly in the text.
2.  **ALWAYS use LaTeX commands inside dollar signs for all math symbols.** Use `$\ne$` for the 'not equal' symbol. Use `$\to$` for arrows. Use `$\infty$` for infinity.
3.  **EVERYTHING mathematical must be inside dollar signs.** This includes single variables (like `$x$`), numbers (like `$1$`), and full expressions.
4.  Correct example: `...ដូច្នេះ $x \ne 1$...`
5.  Incorrect example: `...ដូច្នេះ x ≠ 1...`
Following these rules is mandatory for correct display.".

Definition contact_failure_prefix : jsstring :=
  Js.lit "មានបញ្ហាក្នុងការទាក់ទងទៅកាន់សេវាកម្ម AI: ".

Definition unknown_failure : jsstring :=
  Js.lit "មានបញ្ហាដែលមិនអាចកំណត់បានកើតឡើងនៅពេលព្យាយាមដោះស្រាយលំហាត់។".

Arguments prompt : simpl never.
Arguments contact_failure_prefix : simpl never.
Arguments unknown_failure : simpl never.

Definition solveLimitFromImage (generateContent : RemoteModel)
    (base64Image mimeType : jsstring) : Settled (option jsstring) :=
  let imagePart :=
    ImagePart {| inline_mimeType := mimeType; inline_data := base64Image |} in
  let textPart := TextPart prompt in
  match generateContent {| model := Js.lit "gemini-2.5-flash";
                           parts := [imagePart; textPart] |} with
  | Resolved response => Resolved (text response)
  | Rejected (ThrownError message) =>
      Resolved (Some (contact_failure_prefix ++ message))
  | Rejected ThrownOther => Resolved (Some unknown_failure)
  end.

End Gemini.

(** ** History entries ([interface HistoryEntry]) *)

Record ImageData := { base64 : jsstring; mimeType : jsstring }.

Record HistoryEntry := {
  id : Z;
  imageData : ImageData;
  problemSnippet : jsstring;
  fullSolution : jsstring
}.

(** ** The browser

    Blobs, object URLs and the canvas are the browser's. Their behaviour is
    not in the repository: the embedding keeps a registry of object URLs,
    whose rules are simple, and takes the canvas as a parameter. *)

Abbreviation bytes := (list Byte.byte).

(** A [Blob], and a [File], which is one: its content and its [type]. *)
Record Blob := { blob_bytes : bytes; blob_type : jsstring }.

(** A string used as a URL: the opaque handle [URL.createObjectURL]
    returns, or the template [`data:${mime};base64,${payload}`]. *)
Inductive Url :=
| ObjectUrl (handle : nat)
| DataUrl (mime payload : jsstring).

#[global] Instance Url_eq_dec : EqDecision Url.
Proof. solve_decision. Defined.

(** The registry behind [URL.createObjectURL] and [URL.revokeObjectURL]:
    the blobs that live handles keep alive, the next fresh handle, and
    the log of every revocation call. *)
Record UrlStore := {
  objects : gmap nat Blob;
  next_handle : nat;
  revoked : list Url
}.

Definition createObjectURL (blob : Blob) (st : UrlStore) : Url * UrlStore :=
  (ObjectUrl (next_handle st),
   {| objects := <[next_handle st := blob]> (objects st);
      next_handle := S (next_handle st);
      revoked := revoked st |}).

Definition revokeObjectURL (url : Url) (st : UrlStore) : UrlStore :=
  {| objects := match url with
                | ObjectUrl h => delete h (objects st)
                | DataUrl _ _ => objects st
                end;
     next_handle := next_handle st;
     revoked := revoked st ++ [url] |}.

(** [PixelCrop] of react-image-crop and the fields of [HTMLImageElement]
    that [getCroppedImg] reads. JavaScript numbers are floating point;
    exact rationals stand in for them, no claim below computes with them. *)
Record PixelCrop := {
  crop_x : Q; crop_y : Q; crop_width : Q; crop_height : Q
}.

Record HTMLImageElement := {
  naturalWidth : Q; naturalHeight : Q; img_width : Q; img_height : Q
}.

(** The canvas as [getCroppedImg] leaves it before serialising. *)
Record Canvas := {
  canvas_width : Q;
  canvas_height : Q;
  transform : Q;
  drawn_image : HTMLImageElement;
  src_x : Q; src_y : Q; src_w : Q; src_h : Q;
  dst_w : Q; dst_h : Q
}.

(** What [JSON.parse] makes of a text: it throws, or gives a value. Of
    the values, the embedding tells apart an array of history entries,
    [null], and every other value: a number, a string, a boolean, an
    object, an array of anything else. *)
Inductive Parsed :=
| ParseThrows
| ParsedEntries (log : list HistoryEntry)
| ParsedNull
| ParsedOther.

(** What this program needs of the browser. [serialize] is the canvas
    serialisation both [toDataURL] and [toBlob] run, the quality argument
    absent or given; it yields no file for a canvas without pixels or on
    failure. [btoa] is the base64 text of bytes. [JSON_parse] is
    [JSON.parse]. *)
Record Browser := {
  devicePixelRatio : option Q;
  context2d : bool;
  serialize : Canvas -> jsstring -> option Q -> option Blob;
  btoa : bytes -> jsstring;
  JSON_parse : jsstring -> Parsed
}.

(** ** The application ([src/App.tsx]) *)

(** The state of [App]: its [useState] cells, and the browser's object-URL
    registry, which its handlers change. *)
Record State := {
  imageBase64 : option ImageData;
  imageUrl : option Url;
  solution : option jsstring;
  isLoading : bool;
  error : option jsstring;
  isCopied : bool;
  history : list HistoryEntry;
  uncroppedImageUrl : option Url;
  isCropperOpen : bool;
  originalMimeType : option jsstring;
  completedCrop : option PixelCrop;
  urls : UrlStore
}.

Definition initial : State := {|
  imageBase64 := None; imageUrl := None; solution := None;
  isLoading := false; error := None; isCopied := false; history := [];
  uncroppedImageUrl := None; isCropperOpen := false;
  originalMimeType := None; completedCrop := None;
  urls := {| objects := ∅; next_handle := 0; revoked := [] |}
|}.

(** The [set...] functions of the [useState] cells. *)

Definition setImageBase64 (v : option ImageData) (s : State) : State :=
  {| imageBase64 := v; imageUrl := imageUrl s; solution := solution s;
     isLoading := isLoading s; error := error s; isCopied := isCopied s;
     history := history s; uncroppedImageUrl := uncroppedImageUrl s;
     isCropperOpen := isCropperOpen s;
     originalMimeType := originalMimeType s;
     completedCrop := completedCrop s; urls := urls s |}.

Definition setImageUrl (v : option Url) (s : State) : State :=
  {| imageBase64 := imageBase64 s; imageUrl := v; solution := solution s;
     isLoading := isLoading s; error := error s; isCopied := isCopied s;
     history := history s; uncroppedImageUrl := uncroppedImageUrl s;
     isCropperOpen := isCropperOpen s;
     originalMimeType := originalMimeType s;
     completedCrop := completedCrop s; urls := urls s |}.

Definition setSolution (v : option jsstring) (s : State) : State :=
  {| imageBase64 := imageBase64 s; imageUrl := imageUrl s; solution := v;
     isLoading := isLoading s; error := error s; isCopied := isCopied s;
     history := history s; uncroppedImageUrl := uncroppedImageUrl s;
     isCropperOpen := isCropperOpen s;
     originalMimeType := originalMimeType s;
     completedCrop := completedCrop s; urls := urls s |}.

Definition setIsLoading (v : bool) (s : State) : State :=
  {| imageBase64 := imageBase64 s; imageUrl := imageUrl s;
     solution := solution s; isLoading := v; error := error s;
     isCopied := isCopied s; history := history s;
     uncroppedImageUrl := uncroppedImageUrl s;
     isCropperOpen := isCropperOpen s;
     originalMimeType := originalMimeType s;
     completedCrop := completedCrop s; urls := urls s |}.

Definition setError (v : option jsstring) (s : State) : State :=
  {| imageBase64 := imageBase64 s; imageUrl := imageUrl s;
     solution := solution s; isLoading := isLoading s; error := v;
     isCopied := isCopied s; history := history s;
     uncroppedImageUrl := uncroppedImageUrl s;
     isCropperOpen := isCropperOpen s;
     originalMimeType := originalMimeType s;
     completedCrop := completedCrop s; urls := urls s |}.

Definition setIsCopied (v : bool) (s : State) : State :=
  {| imageBase64 := imageBase64 s; imageUrl := imageUrl s;
     solution := solution s; isLoading := isLoading s; error := error s;
     isCopied := v; history := history s;
     uncroppedImageUrl := uncroppedImageUrl s;
     isCropperOpen := isCropperOpen s;
     originalMimeType := originalMimeType s;
     completedCrop := completedCrop s; urls := urls s |}.

(** [setHistory(prev => f(prev))]; [setHistory(v)] is the constant [f]. *)
Definition setHistory (f : list HistoryEntry -> list HistoryEntry)
    (s : State) : State :=
  {| imageBase64 := imageBase64 s; imageUrl := imageUrl s;
     solution := solution s; isLoading := isLoading s; error := error s;
     isCopied := isCopied s; history := f (history s);
     uncroppedImageUrl := uncroppedImageUrl s;
     isCropperOpen := isCropperOpen s;
     originalMimeType := originalMimeType s;
     completedCrop := completedCrop s; urls := urls s |}.

Definition setUncroppedImageUrl (v : option Url) (s : State) : State :=
  {| imageBase64 := imageBase64 s; imageUrl := imageUrl s;
     solution := solution s; isLoading := isLoading s; error := error s;
     isCopied := isCopied s; history := history s; uncroppedImageUrl := v;
     isCropperOpen := isCropperOpen s;
     originalMimeType := originalMimeType s;
     completedCrop := completedCrop s; urls := urls s |}.

Definition setIsCropperOpen (v : bool) (s : State) : State :=
  {| imageBase64 := imageBase64 s; imageUrl := imageUrl s;
     solution := solution s; isLoading := isLoading s; error := error s;
     isCopied := isCopied s; history := history s;
     uncroppedImageUrl := uncroppedImageUrl s; isCropperOpen := v;
     originalMimeType := originalMimeType s;
     completedCrop := completedCrop s; urls := urls s |}.

Definition setOriginalMimeType (v : option jsstring) (s : State) : State :=
  {| imageBase64 := imageBase64 s; imageUrl := imageUrl s;
     solution := solution s; isLoading := isLoading s; error := error s;
     isCopied := isCopied s; history := history s;
     uncroppedImageUrl := uncroppedImageUrl s;
     isCropperOpen := isCropperOpen s; originalMimeType := v;
     completedCrop := completedCrop s; urls := urls s |}.

Definition setCompletedCrop (v : option PixelCrop) (s : State) : State :=
  {| imageBase64 := imageBase64 s; imageUrl := imageUrl s;
     solution := solution s; isLoading := isLoading s; error := error s;
     isCopied := isCopied s; history := history s;
     uncroppedImageUrl := uncroppedImageUrl s;
     isCropperOpen := isCropperOpen s;
     originalMimeType := originalMimeType s; completedCrop := v;
     urls := urls s |}.

(** A browser call that changes the object-URL registry. *)
Definition withUrls (f : UrlStore -> UrlStore) (s : State) : State :=
  {| imageBase64 := imageBase64 s; imageUrl := imageUrl s;
     solution := solution s; isLoading := isLoading s; error := error s;
     isCopied := isCopied s; history := history s;
     uncroppedImageUrl := uncroppedImageUrl s;
     isCropperOpen := isCropperOpen s;
     originalMimeType := originalMimeType s;
     completedCrop := completedCrop s; urls := f (urls s) |}.

(** Statements of a handler in source order: [s |> f |> g] runs [f]
    and then [g]. *)
Notation "s |> f" := (f s) (at level 45, left associativity, only parsing).

(** A promise that may also stay pending for ever. *)
Inductive Promise (A : Type) :=
| Settles (outcome : Settled A)
| Pending.

Arguments Settles {A} outcome.
Arguments Pending {A}.

(** [window.devicePixelRatio || 1] *)
Definition pixelRatio (B : Browser) : Q :=
  match devicePixelRatio B with
  | Some r => if Qeq_bool r 0 then 1%Q else r
  | None => 1%Q
  end.

(** [canvas.toDataURL(mimeType).split(',')[1]]: the base64 text after the
    comma of the data URL of the serialised canvas; the empty string after
    the comma of ["data:,"], which a canvas without a file gives. No
    quality argument is passed. *)
Definition toDataURL_payload (B : Browser) (canvas : Canvas)
    (mimeType : jsstring) : jsstring :=
  match serialize B canvas mimeType None with
  | Some file => btoa B (blob_bytes file)
  | None => []
  end.

(** [canvas.toBlob(callback, mimeType, 1)]: what the callback receives. *)
Definition toBlob (B : Browser) (canvas : Canvas) (mimeType : jsstring)
    (quality : Q) : option Blob :=
  serialize B canvas mimeType (Some quality).

Definition getCroppedImg (B : Browser) (image : HTMLImageElement)
    (crop : PixelCrop) (mimeType : jsstring) (st : UrlStore)
    : Promise (jsstring * Url) * UrlStore :=
  let scaleX := (naturalWidth image / img_width image)%Q in
  let scaleY := (naturalHeight image / img_height image)%Q in
  if negb (context2d B) then
    (Settles (Rejected (ThrownError (Js.lit "Could not get canvas context"))),
     st)
  else
    let pixelRatio := pixelRatio B in
    let canvas := {|
      canvas_width := (crop_width crop * pixelRatio)%Q;
      canvas_height := (crop_height crop * pixelRatio)%Q;
      transform := pixelRatio;
      drawn_image := image;
      src_x := (crop_x crop * scaleX)%Q;
      src_y := (crop_y crop * scaleY)%Q;
      src_w := (crop_width crop * scaleX)%Q;
      src_h := (crop_height crop * scaleY)%Q;
      dst_w := crop_width crop;
      dst_h := crop_height crop |} in
    let base64 := toDataURL_payload B canvas mimeType in
    match toBlob B canvas mimeType 1 with
    | None => (Pending, st)
    | Some blob =>
        let '(url, st') := createObjectURL blob st in
        (Settles (Resolved (base64, url)), st')
    end.

(** [if (url) URL.revokeObjectURL(url)] *)
Definition revokeIfSet (url : option Url) (s : State) : State :=
  match url with
  | Some u => withUrls (revokeObjectURL u) s
  | None => s
  end.

(** [handleImageChange]; [file] is [event.target.files?.[0]]. *)
Definition handleImageChange (file : option Blob) (s : State) : State :=
  match file with
  | Some file =>
      let s1 :=
        s |> revokeIfSet (imageUrl s)
          |> revokeIfSet (uncroppedImageUrl s)
          |> setSolution None
          |> setError None
          |> setIsCopied false
          |> setImageUrl None
          |> setImageBase64 None
          |> setOriginalMimeType (Some (blob_type file)) in
      let '(url, st) := createObjectURL file (urls s1) in
      s1 |> withUrls (fun _ => st)
         |> setUncroppedImageUrl (Some url)
         |> setIsCropperOpen true
  | None => s
  end.

Definition crop_failure : jsstring :=
  Js.lit "Could not crop the image. Please try again.".

Arguments crop_failure : simpl never.

(** [handleCropConfirm]; [cropImageRef] is [cropImageRef.current]. *)
Definition handleCropConfirm (B : Browser)
    (cropImageRef : option HTMLImageElement) (s : State) : State :=
  match completedCrop s, cropImageRef, originalMimeType s with
  | Some completedCrop, Some image, Some originalMimeType =>
      if Js.truthy originalMimeType then
        match getCroppedImg B image completedCrop originalMimeType (urls s)
        with
        | (Settles (Resolved (croppedBase64, croppedUrl)), st) =>
            s |> withUrls (fun _ => st)
              |> setImageBase64 (Some {| base64 := croppedBase64;
                                         mimeType := originalMimeType |})
              |> setImageUrl (Some croppedUrl)
              |> setIsCropperOpen false
              |> setUncroppedImageUrl None
        | (Settles (Rejected _), st) =>
            s |> withUrls (fun _ => st)
              |> setError (Some crop_failure)
              |> setIsCropperOpen false
              |> setUncroppedImageUrl None
        | (Pending, st) => s |> withUrls (fun _ => st)
        end
      else s
  | _, _, _ => s
  end.

Definition handleCropCancel (s : State) : State :=
  s |> setIsCropperOpen false |> setUncroppedImageUrl None.

(** The message of [handleSolve]'s [catch]. *)
Definition solve_failure : jsstring :=
  Js.lit "á˜á¶á“á”á‰áŸ’á á¶á€áŸ’á“á»á„á€á¶ášáŠáŸ„áŸ‡áŸáŸ’ášá¶á™á›áŸ†á á¶ááŸ‹áŸ” áŸá¼á˜á–áŸ’á™á¶á™á¶á˜á˜áŸ’áá„á‘áŸ€ááŸ”".

Arguments solve_failure : simpl never.

(** [handleSolve] up to its [await]: nothing without an image; else the
    image its closure holds, and the state with the request under way. *)
Definition handleSolve_start (s : State) : option (ImageData * State) :=
  match imageBase64 s with
  | None => None
  | Some image =>
      Some (image,
            s |> setIsLoading true
              |> setError None
              |> setSolution None
              |> setIsCopied false)
  end.

(** [[newEntry, ...prevHistory].slice(0, 20)] *)
Definition insert_entry (newEntry : HistoryEntry)
    (prevHistory : list HistoryEntry) : list HistoryEntry :=
  take 20 (newEntry :: prevHistory).

(** [handleSolve] from the point its [await] settles; [now] is
    [Date.now()]. With [undefined] for a result, [setSolution] takes it,
    then [extractSnippet] throws on [solutionText.split] and the [catch]
    runs. *)
Definition handleSolve_settle (image : ImageData) (now : Z)
    (awaited : Settled (option jsstring)) (s : State) : State :=
  match awaited with
  | Resolved None =>
      s |> setSolution None
        |> setError (Some solve_failure)
        |> setIsLoading false
  | Resolved (Some result) =>
      let newEntry := {|
        id := now;
        imageData := image;
        problemSnippet := Snippet.extractSnippet result;
        fullSolution := result |} in
      s |> setSolution (Some result)
        |> setHistory (insert_entry newEntry)
        |> setIsLoading false
  | Rejected _ =>
      s |> setError (Some solve_failure)
        |> setIsLoading false
  end.

(** [handleSolve], the request settling before any other event. *)
Definition handleSolve (generateContent : Gemini.RemoteModel) (now : Z)
    (s : State) : State :=
  match handleSolve_start s with
  | None => s
  | Some (image, s1) =>
      handleSolve_settle image now
        (Gemini.solveLimitFromImage generateContent
           (base64 image) (mimeType image))
        s1
  end.

Definition handleSelectHistoryItem (item : HistoryEntry) (s : State) : State :=
  s |> setImageBase64 (Some (imageData item))
    |> setImageUrl (Some (DataUrl (mimeType (imageData item))
                                  (base64 (imageData item))))
    |> setSolution (Some (fullSolution item))
    |> setError None
    |> setIsCopied false.

Definition handleClearHistory (s : State) : State :=
  s |> setHistory (fun _ => []).

Definition handleDeleteHistoryEntry (id0 : Z) (s : State) : State :=
  s |> setHistory (fun prev => filter (fun entry => id entry <> id0) prev).

(** What [localStorage.getItem('limitSolverHistory')] does. *)
Inductive StorageRead :=
| GetItemThrows
| GetItemReturns (stored : option jsstring).

(** What the [history] cell holds. Its type says an array of entries;
    the load effect passes whatever [JSON.parse] gave to [setHistory]
    without a check. *)
Inductive HistoryCell :=
| CellEntries (log : list HistoryEntry)
| CellNull
| CellOther.

(** The [try] block of the effect that loads the history when [App]
    mounts: the cell it leaves, or nothing when [getItem] or [JSON.parse]
    throws. *)
Definition loadHistory_try (B : Browser) (read : StorageRead)
    (cell : HistoryCell) : option HistoryCell :=
  match read with
  | GetItemThrows => None
  | GetItemReturns None => Some cell
  | GetItemReturns (Some storedHistory) =>
      if Js.truthy storedHistory then
        match JSON_parse B storedHistory with
        | ParseThrows => None
        | ParsedEntries parsed => Some (CellEntries parsed)
        | ParsedNull => Some CellNull
        | ParsedOther => Some CellOther
        end
      else Some cell
  end.

(** The effect with its [catch], which sets the empty history. *)
Definition loadHistory (B : Browser) (read : StorageRead)
    (cell : HistoryCell) : HistoryCell :=
  match loadHistory_try B read cell with
  | Some cell' => cell'
  | None => CellEntries []
  end.

(** [history.length] at the top of [HistorySection]: reading a property
    of [null] throws; of any other value it does not. *)
Definition HistorySection_throws (cell : HistoryCell) : bool :=
  match cell with
  | CellNull => true
  | CellEntries _ | CellOther => false
  end.

(** How [App] comes up: running with a history of entries; running with
    something else in the history cell, of which the typed state says
    nothing; or not at all, the render after the load having thrown. *)
Inductive Mount :=
| Running (s : State)
| RunningUntyped
| Crashed.

(** The load effect and the render that follows it. *)
Definition mount (B : Browser) (read : StorageRead) : Mount :=
  let cell := loadHistory B read (CellEntries (history initial)) in
  if HistorySection_throws cell then Crashed
  else match cell with
       | CellEntries log => Running (initial |> setHistory (fun _ => log))
       | CellNull | CellOther => RunningUntyped
       end.

(** The typed state runs start from: the state [App] comes up with,
    and where it does not come up with a history of entries, the cells
    as they are before the load, which sets no other cell. *)
Definition startup (B : Browser) (read : StorageRead) : State :=
  match mount B read with
  | Running s => s
  | RunningUntyped | Crashed => initial
  end.

(** ** What the page shows *)

(** The problem on display: the encoded image and the URL of its
    picture. *)
Record ProblemState := {
  image : option ImageData;
  displayUrl : option Url
}.

Definition problemState (s : State) : ProblemState :=
  {| image := imageBase64 s; displayUrl := imageUrl s |}.

Inductive SolveOutcome :=
| Idle
| InProgress
| Succeeded (text : jsstring)
| Failed (message : jsstring).

(** [if (v)] on a string that may be [null]. *)
Definition if_set (v : option jsstring) : option jsstring :=
  match v with
  | Some t => if Js.truthy t then Some t else None
  | None => None
  end.

(** The outcome as [SolutionDisplay] renders it: the loader while
    [isLoading], else the error, else the solution, else nothing. *)
Definition solveOutcome (s : State) : SolveOutcome :=
  if isLoading s then InProgress
  else match if_set (error s) with
       | Some message => Failed message
       | None =>
           match if_set (solution s) with
           | Some text => Succeeded text
           | None => Idle
           end
       end.

(** ** Runs of the application *)

(** What can happen to the page. [SolveStart] and [SolveSettle] are the
    two halves of [Solve] for runs in which other events come between;
    [SolveSettle] carries the image the closure kept and what the awaited
    call settled to. *)
Inductive Event :=
| PickFile (file : option Blob)
| CropComplete (c : PixelCrop)
| CropConfirm (cropImageRef : option HTMLImageElement)
| CropCancel
| Solve (generateContent : Gemini.RemoteModel) (now : Z)
| SolveStart
| SolveSettle (image : ImageData) (now : Z)
    (awaited : Settled (option jsstring))
| SelectHistoryItem (item : HistoryEntry)
| DeleteHistoryEntry (id0 : Z)
| ClearHistory.

Definition step (B : Browser) (e : Event) (s : State) : State :=
  match e with
  | PickFile file => handleImageChange file s
  | CropComplete c => setCompletedCrop (Some c) s
  | CropConfirm cropImageRef => handleCropConfirm B cropImageRef s
  | CropCancel => handleCropCancel s
  | Solve generateContent now => handleSolve generateContent now s
  | SolveStart =>
      match handleSolve_start s with
      | Some (_, s1) => s1
      | None => s
      end
  | SolveSettle image now awaited => handleSolve_settle image now awaited s
  | SelectHistoryItem item => handleSelectHistoryItem item s
  | DeleteHistoryEntry id0 => handleDeleteHistoryEntry id0 s
  | ClearHistory => handleClearHistory s
  end.

Definition run (B : Browser) (events : list Event) (s : State) : State :=
  fold_left (fun s e => step B e s) events s.

(** The history after inserting [entries] one after the other. *)
Definition insert_all (entries : list HistoryEntry)
    (log : list HistoryEntry) : list HistoryEntry :=
  fold_left (fun log e => insert_entry e log) entries log.

(** ** Display handles *)

(** How many times a handle was passed to [URL.revokeObjectURL]. *)
Definition releases (u : Url) (s : State) : nat :=
  length (filter (fun v => v = u) (revoked (urls s))).

(** The handle still keeps its blob alive. *)
Definition live (u : Url) (s : State) : Prop :=
  match u with
  | ObjectUrl h => is_Some (objects (urls s) !! h)
  | DataUrl _ _ => False
  end.

(** Handles are given out in order: every registered one is below the
    next. *)
Definition store_ok (st : UrlStore) : Prop :=
  forall h, is_Some (objects st !! h) -> h < next_handle st.

(** Every handle the page holds or has revoked was given out before. *)
Definition below (st : UrlStore) (u : Url) : Prop :=
  match u with
  | ObjectUrl h => h < next_handle st
  | DataUrl _ _ => True
  end.

Definition handles_ok (s : State) : Prop :=
  store_ok (urls s)
  /\ (forall u, imageUrl s = Some u -> below (urls s) u)
  /\ (forall u, uncroppedImageUrl s = Some u -> below (urls s) u)
  /\ Forall (below (urls s)) (revoked (urls s)).

(** A handle the page no longer holds, never revoked, its blob still
    registered. *)
Definition forgotten (h : nat) (blob : Blob) (s : State) : Prop :=
  h < next_handle (urls s)
  /\ imageUrl s <> Some (ObjectUrl h)
  /\ uncroppedImageUrl s <> Some (ObjectUrl h)
  /\ releases (ObjectUrl h) s = 0
  /\ objects (urls s) !! h = Some blob.

(** [if (url) URL.revokeObjectURL(url)] on the registry alone. *)
Definition revoke_opt (url : option Url) (st : UrlStore) : UrlStore :=
  match url with
  | Some u => revokeObjectURL u st
  | None => st
  end.

(** What one event does to the image, the URLs and the registry. There
    are four ways: the image and the registry stay; a history entry is put
    on display; a file is picked; a crop is confirmed and encoded. *)
Inductive UrlEffect (B : Browser) (s s' : State) : Prop :=
| eff_keep :
    urls s' = urls s ->
    imageBase64 s' = imageBase64 s ->
    imageUrl s' = imageUrl s ->
    uncroppedImageUrl s' = uncroppedImageUrl s
    \/ uncroppedImageUrl s' = None ->
    UrlEffect B s s'
| eff_select item :
    urls s' = urls s ->
    imageBase64 s' = Some (imageData item) ->
    imageUrl s' = Some (DataUrl (mimeType (imageData item))
                                (base64 (imageData item))) ->
    uncroppedImageUrl s' = uncroppedImageUrl s ->
    UrlEffect B s s'
| eff_pick file :
    urls s'
    = (createObjectURL file
         (revoke_opt (uncroppedImageUrl s)
            (revoke_opt (imageUrl s) (urls s)))).2 ->
    imageBase64 s' = None ->
    imageUrl s' = None ->
    uncroppedImageUrl s' = Some (ObjectUrl (next_handle (urls s))) ->
    UrlEffect B s s'
| eff_crop canvas blob mime :
    toBlob B canvas mime 1 = Some blob ->
    urls s' = (createObjectURL blob (urls s)).2 ->
    imageBase64 s'
    = Some {| base64 := toDataURL_payload B canvas mime; mimeType := mime |} ->
    imageUrl s' = Some (ObjectUrl (next_handle (urls s))) ->
    uncroppedImageUrl s' = None ->
    UrlEffect B s s'.

(** ** The invariant of the problem on display *)

(** The invariant as specified: the URL names the bytes of the image. A
    data URL holds its payload; an object URL names a blob, whose bytes in
    base64 are to be the payload. *)
Definition same_bytes (B : Browser) (st : UrlStore) (img : ImageData)
    (u : Url) : Prop :=
  match u with
  | DataUrl _ payload => payload = base64 img
  | ObjectUrl h =>
      exists blob,
        objects st !! h = Some blob /\ btoa B (blob_bytes blob) = base64 img
  end.

Definition ProblemInvariant (B : Browser) (s : State) : Prop :=
  match imageBase64 s, imageUrl s with
  | None, None => True
  | Some img, Some u => same_bytes B (urls s) img u
  | _, _ => False
  end.

(** What the code keeps: a data URL is built from the image's own MIME
    type and payload; an object URL is live and names the blob [toBlob]
    made at quality 1 from a canvas whose [toDataURL] text, made without a
    quality, is the payload. *)
Definition same_picture (B : Browser) (st : UrlStore) (img : ImageData)
    (u : Url) : Prop :=
  match u with
  | DataUrl mime payload => mime = mimeType img /\ payload = base64 img
  | ObjectUrl h =>
      exists canvas blob,
        objects st !! h = Some blob
        /\ toBlob B canvas (mimeType img) 1 = Some blob
        /\ toDataURL_payload B canvas (mimeType img) = base64 img
  end.

Definition ProblemConsistent (B : Browser) (s : State) : Prop :=
  match imageBase64 s, imageUrl s with
  | None, None => True
  | Some img, Some u => same_picture B (urls s) img u
  | _, _ => False
  end.

(** ** Sample data *)

(** A browser whose encoder heeds the quality argument, as encoders of
    lossy formats do: the default quality and quality 1 give different
    files. *)
Definition lossy_browser : Browser := {|
  devicePixelRatio := Some 2%Q;
  context2d := true;
  serialize := fun _ mime quality =>
    Some {| blob_bytes := match quality with
                          | None => [Byte.x5c]
                          | Some _ => [Byte.x64]
                          end;
            blob_type := mime |};
  btoa := fun bs => List.map (fun b => Byte.to_N b) bs;
  JSON_parse := fun _ => ParseThrows
|}.

Definition photo : Blob :=
  {| blob_bytes := [Byte.xff; Byte.xd8]; blob_type := Js.lit "image/jpeg" |}.

Definition photo_element : HTMLImageElement :=
  {| naturalWidth := 800; naturalHeight := 600;
     img_width := 400; img_height := 300 |}.

Definition selection : PixelCrop :=
  {| crop_x := 20; crop_y := 15; crop_width := 360; crop_height := 270 |}.

Definition network_down : Gemini.RemoteModel :=
  fun _ => Rejected (ThrownError (Js.lit "Failed to fetch")).

Definition answers (t : jsstring) : Gemini.RemoteModel :=
  fun _ => Resolved {| Gemini.text := Some t |}.

Definition sample_image : ImageData :=
  {| base64 := Js.lit "AAAA"; mimeType := Js.lit "image/png" |}.

Definition sample_entry (n : Z) : HistoryEntry :=
  {| id := n; imageData := sample_image;
     problemSnippet := Js.lit "$x$"; fullSolution := Js.lit "## $x$" |}.

(** A page showing a solved problem, no crop session open. *)
Definition solved_page : State :=
  handleSelectHistoryItem (sample_entry 1) initial.

(** ** The controls of the page

    [ImageUploader] disables its file input and its solve button. *)

(** [hasImage={!!imageBase64}] *)
Definition hasImage (s : State) : bool :=
  match imageBase64 s with Some _ => true | None => false end.

(** [disabled={!hasImage || isLoading}] on the solve button. *)
Definition solveDisabled (s : State) : bool :=
  negb (hasImage s) || isLoading s.

(** [disabled={isLoading}] on the file input. *)
Definition fileInputDisabled (s : State) : bool := isLoading s.

(** The events whose [finally] sets [isLoading] back. *)
Definition settles (e : Event) : bool :=
  match e with
  | Solve _ _ | SolveSettle _ _ _ => true
  | _ => false
  end.

(** The [onComplete] of the crop widget. *)
Definition is_crop_complete (e : Event) : bool :=
  match e with CropComplete _ => true | _ => false end.

(** ** The theme *)

(** The type ['light' | 'dark'], and the string each value is. *)
Inductive Theme := Light | Dark.

Definition theme_name (t : Theme) : jsstring :=
  match t with
  | Light => Js.lit "light"
  | Dark => Js.lit "dark"
  end.

(** What the theme code reads of [window]: [localStorage], and whether
    [matchMedia('(prefers-color-scheme: dark)')] matches. *)
Record Window := {
  localStorage : gmap jsstring jsstring;
  prefers_dark : bool
}.

(** The initialiser of the [theme] cell; there is no [window] when
    [typeof window] is ['undefined']. *)
Definition initialTheme (window : option Window) : Theme :=
  match window with
  | Some w =>
      let savedTheme := localStorage w !! Js.lit "theme" in
      if bool_decide (savedTheme = Some (Js.lit "dark")) then Dark
      else if bool_decide (savedTheme = Some (Js.lit "light")) then Light
      else if prefers_dark w then Dark
      else Light
  | None => Light
  end.

(** [prevTheme => (prevTheme === 'light' ? 'dark' : 'light')] *)
Definition toggleTheme (prevTheme : Theme) : Theme :=
  match prevTheme with
  | Light => Dark
  | Dark => Light
  end.

(** The effect on [theme]: whether the root element has the class [dark]
    afterwards, and the storage afterwards. *)
Definition themeEffect (theme : Theme) (storage : gmap jsstring jsstring)
    : bool * gmap jsstring jsstring :=
  (match theme with Dark => true | Light => false end,
   <[Js.lit "theme" := theme_name theme]> storage).

(** ** Copying the solution *)

(** What [handleCopyToClipboard] does besides setting state. [Uncaught]
    is an exception, or a rejection, that nothing catches. *)
Inductive CopyAction :=
| ClipboardWrite (html text : jsstring)
| ClipboardWriteText (text : jsstring)
| ResetCopiedAfter (ms : N)
| Alert (message : jsstring)
| Uncaught.

Definition copy_failure : jsstring :=
  Js.lit "Could not copy text to clipboard.".

Arguments copy_failure : simpl never.

(** What a clipboard write comes to. It is unavailable when the call
    throws where it stands: [new ClipboardItem(...)] or
    [navigator.clipboard.write] is missing, before any [.catch] is
    attached; [navigator.clipboard.writeText] is missing, inside the
    [catch] callback. Otherwise its promise resolves or rejects. *)
Inductive Write :=
| WriteUnavailable
| WriteResolves
| WriteRejects.

(** [handleCopyToClipboard]. [content] is the [innerHTML] and [innerText]
    of the [.markdown-content] element under [solutionRef.current], if
    both are there; [rich] and [plain] are what [clipboard.write] and
    [clipboard.writeText] come to. *)
Definition handleCopyToClipboard (content : option (jsstring * jsstring))
    (rich plain : Write) (s : State) : State * list CopyAction :=
  match content with
  | None => (s, [])
  | Some (htmlContent, textContent) =>
      match rich with
      | WriteUnavailable => (s, [Uncaught])
      | WriteResolves =>
          (s |> setIsCopied true,
           [ClipboardWrite htmlContent textContent; ResetCopiedAfter 2500])
      | WriteRejects =>
          match plain with
          | WriteUnavailable =>
              (s, [ClipboardWrite htmlContent textContent; Uncaught])
          | WriteResolves =>
              (s |> setIsCopied true,
               [ClipboardWrite htmlContent textContent;
                ClipboardWriteText textContent; ResetCopiedAfter 2500])
          | WriteRejects =>
              (s,
               [ClipboardWrite htmlContent textContent;
                ClipboardWriteText textContent; Alert copy_failure])
          end
      end
  end.

(** The callback of [setTimeout(() => setIsCopied(false), 2500)]. *)
Definition copiedTimeout (s : State) : State := s |> setIsCopied false.

(** ** More invariants of runs *)

(** The cropper is open exactly while a pending image is held, and then
    the MIME type of the picked file is recorded. *)
Definition session_ok (s : State) : Prop :=
  (isCropperOpen s = true <-> is_Some (uncroppedImageUrl s))
  /\ (isCropperOpen s = true -> is_Some (originalMimeType s)).

(** The page holds the URL, for display or for cropping. *)
Definition held (u : Url) (s : State) : Prop :=
  imageUrl s = Some u \/ uncroppedImageUrl s = Some u.

(** Object URLs are revoked at most once, a held one was never revoked
    and is live, a revoked one has lost its blob, and the two cells hold
    different handles. *)
Definition release_ok (s : State) : Prop :=
  (forall h, releases (ObjectUrl h) s <= 1)
  /\ (forall h, held (ObjectUrl h) s ->
        releases (ObjectUrl h) s = 0 /\ is_Some (objects (urls s) !! h))
  /\ (forall h, 0 < releases (ObjectUrl h) s -> objects (urls s) !! h = None)
  /\ (forall h, imageUrl s = Some (ObjectUrl h) ->
        uncroppedImageUrl s <> Some (ObjectUrl h)).

(** The snippet of every entry is the one its full solution gives. *)
Definition snippets_derived (log : list HistoryEntry) : Prop :=
  Forall (fun e => problemSnippet e = Snippet.extractSnippet (fullSolution e))
         log.

(** ** More sample data *)

(** A browser that gives no 2D context. *)
Definition contextless_browser : Browser := {|
  devicePixelRatio := None;
  context2d := false;
  serialize := serialize lossy_browser;
  btoa := btoa lossy_browser;
  JSON_parse := fun _ => ParseThrows
|}.

(** A file whose type the browser does not know. *)
Definition untyped_file : Blob :=
  {| blob_bytes := [Byte.x00]; blob_type := [] |}.

(** A page with a crop session open on [photo] and a selection made. *)
Definition cropping_page : State :=
  setCompletedCrop (Some selection) (handleImageChange (Some photo) initial).

(** ** Encoding, as specified and as it is *)




(** ** Sample data for the widened cases *)





(** A remote model whose response holds no text. *)
Definition blocked : Gemini.RemoteModel :=
  fun _ => Resolved {| Gemini.text := None |}.

(** A browser in the storage of which something else wrote: its
    [JSON.parse] knows the texts [null] and [5]. *)
Definition tampered_browser : Browser := {|
  devicePixelRatio := None;
  context2d := true;
  serialize := serialize lossy_browser;
  btoa := btoa lossy_browser;
  JSON_parse := fun stored =>
    if bool_decide (stored = Js.lit "null") then ParsedNull
    else if bool_decide (stored = Js.lit "5") then ParsedOther
    else ParseThrows
|}.

(** A page on which a request is under way. *)
Definition solving_page : State :=
  match handleSolve_start solved_page with
  | Some (_, s) => s
  | None => solved_page
  end.

(** * Properties *)

(** ** Coming up *)

Module MountFacts.

(** The typed state at start-up is the initial state with some log. *)
Lemma startup_log B read :
  exists log, startup B read = setHistory (fun _ => log) initial.
Proof.
  unfold startup, mount.
  destruct (loadHistory B read (CellEntries (history initial))) as [log| |];
    simpl; [by exists log|by exists []|by exists []].
Qed.

End MountFacts.

(** ** Strings *)

Module JsFacts.

Lemma split_nonempty sep s : Js.split sep s <> [].
Proof. destruct s as [|c rest]; simpl; [done|]. by repeat case_match. Qed.

Lemma join_split sep s : Js.join sep (Js.split sep s) = s.
Proof.
  induction s as [|c rest IH]; simpl; [done|].
  destruct (N.eqb_spec c sep) as [->|Hne].
  - pose proof (split_nonempty sep rest) as Hn.
    simpl. destruct (Js.split sep rest) eqn:E; [done|]. by rewrite IH.
  - destruct (Js.split sep rest) as [|l ls] eqn:E.
    + by destruct (split_nonempty sep rest).
    + destruct ls; simpl in *; by subst.
Qed.

Lemma split_lines_free sep s :
  Forall (fun line => Js.includes sep line = false) (Js.split sep s).
Proof.
  induction s as [|c rest IH]; simpl; [by constructor|].
  destruct (N.eqb_spec c sep) as [->|Hne]; [by constructor|].
  pose proof (split_nonempty sep rest) as Hn.
  destruct (Js.split sep rest) as [|l ls]; [done|].
  inversion IH as [|? ? Hl Hls]; subst. constructor; [|done].
  unfold Js.includes in *. simpl. rewrite Hl.
  destruct (N.eqb_spec sep c); [congruence|done].
Qed.

Lemma find_some {A} (p : A -> bool) arr x :
  Js.find p arr = Some x ->
  exists pre post,
    arr = pre ++ x :: post /\ Forall (fun y => p y = false) pre /\ p x = true.
Proof.
  unfold Js.find. induction arr as [|a arr IH]; simpl; [done|].
  destruct (p a) eqn:Ha.
  - intros [= ->]. by exists [], arr.
  - intros Hf. destruct (IH Hf) as (pre & post & -> & Hpre & Hx).
    exists (a :: pre), post. split; [done|]. split; [by constructor|done].
Qed.

Lemma find_none {A} (p : A -> bool) arr :
  Js.find p arr = None -> Forall (fun y => p y = false) arr.
Proof.
  unfold Js.find. induction arr as [|a arr IH]; simpl; [by constructor|].
  destruct (p a) eqn:Ha; [done|]. intros Hf. constructor; auto.
Qed.

Lemma trimStart_spec s :
  exists pre,
    s = pre ++ Js.trimStart s
    /\ Forall (fun c => Js.is_space c = true) pre
    /\ match Js.trimStart s with
       | c :: _ => Js.is_space c = false
       | [] => True
       end.
Proof.
  induction s as [|c rest (pre & Hs & Hpre & Hhd)]; simpl.
  - by exists [].
  - destruct (Js.is_space c) eqn:Hc.
    + exists (c :: pre). split; [simpl; congruence|]. split; [by constructor|done].
    + by exists [].
Qed.

(** [trim] cuts a run of white space off each end, and no more. *)
Lemma trim_spec s :
  exists pre post,
    s = pre ++ Js.trim s ++ post
    /\ Forall (fun c => Js.is_space c = true) pre
    /\ Forall (fun c => Js.is_space c = true) post
    /\ match Js.trim s with c :: _ => Js.is_space c = false | [] => True end
    /\ match rev (Js.trim s) with
       | c :: _ => Js.is_space c = false
       | [] => True
       end.
Proof.
  unfold Js.trim, Js.trimEnd.
  destruct (trimStart_spec s) as (pre & Hs & Hpre & Hhd).
  destruct (trimStart_spec (rev (Js.trimStart s))) as (tl & Hr & Htl & Hlast).
  set (mid := Js.trimStart (rev (Js.trimStart s))) in *.
  assert (Hmid : Js.trimStart s = rev mid ++ rev tl).
  { rewrite <- rev_app_distr, <- Hr. by rewrite rev_involutive. }
  exists pre, (rev tl). repeat split.
  - by rewrite <- Hmid.
  - done.
  - by apply Forall_rev.
  - destruct (rev mid) as [|c r] eqn:Em; [done|].
    rewrite Hmid in Hhd. by simpl in Hhd.
  - by rewrite rev_involutive.
Qed.

Lemma remove_class_free cls s :
  Forall (fun c => cls c = false) (Js.remove_class cls s).
Proof.
  unfold Js.remove_class. induction s as [|c rest IH]; simpl; [by constructor|].
  destruct (cls c) eqn:Hc; simpl; [done|]. by constructor.
Qed.

Lemma Forall_infix {A} (P : A -> Prop) pre mid post :
  Forall P (pre ++ mid ++ post) -> Forall P mid.
Proof.
  intros H. apply Forall_app in H as [_ H]. by apply Forall_app in H as [H _].
Qed.

End JsFacts.

(** ** Snippet extraction *)

Module SnippetFacts.

Import Snippet.

Lemma first_qualifying_unique (pre pre' post post' : list jsstring) l l' :
  pre ++ l :: post = pre' ++ l' :: post' ->
  Forall (fun x => qualifies x = false) pre ->
  Forall (fun x => qualifies x = false) pre' ->
  qualifies l = true -> qualifies l' = true ->
  l = l'.
Proof.
  revert pre'. induction pre as [|a pre IH]; intros [|a' pre'] Heq Hp Hp' Hl Hl';
    simpl in Heq; injection Heq as -> Heq.
  - done.
  - inversion Hp'; congruence.
  - inversion Hp; congruence.
  - inversion Hp; inversion Hp'; subst. eauto.
Qed.

Lemma selects_unique lines l l' :
  selects lines l -> selects lines l' -> l = l'.
Proof.
  intros H H'.
  assert (Hq : forall pre x post,
             lines = pre ++ x :: post -> qualifies x = true ->
             Forall (fun y => qualifies y = false) lines -> False).
  { intros pre x post -> Hx Hall. apply Forall_app in Hall as [_ Hall].
    inversion Hall; congruence. }
  destruct H as [pre x post E Hpre Hx|l0 rest E Hall Hne|rest E Hall];
    destruct H' as [pre' x' post' E' Hpre' Hx'|l0' rest' E' Hall' Hne'|rest' E' Hall'];
    try (exfalso; eauto; fail); subst.
  - eapply first_qualifying_unique; eauto.
  - congruence.
  - congruence.
  - congruence.
  - done.
Qed.

(** The line [extractSnippet] cleans is the one [selects] describes. *)
Lemma snippetLine_selected text :
  exists line,
    selects (Js.split LF text) line /\ extractSnippet text = clean line.
Proof.
  unfold extractSnippet.
  pose proof (JsFacts.split_nonempty LF text) as Hne.
  destruct (Js.find qualifies (Js.split LF text)) as [l|] eqn:Hf.
  - destruct (JsFacts.find_some _ _ _ Hf) as (pre & post & E & Hpre & Hl).
    exists l. split; [by econstructor|].
    assert (Js.truthy l = true) as Ht.
    { unfold qualifies, Js.includes in Hl. by destruct l. }
    unfold Js.or_. rewrite Ht. unfold Js.or_lit. by rewrite Ht.
  - apply JsFacts.find_none in Hf.
    destruct (Js.split LF text) as [|l0 rest] eqn:E; [done|].
    destruct l0 as [|c l0].
    + exists placeholder. split; [by eapply sel_placeholder|done].
    + exists (c :: l0). split; [by eapply sel_first_line|done].
Qed.

End SnippetFacts.

(** C5, as the code has it. The snippet of a text is fixed by the text:
    its lines are the pieces between line feeds; exactly one line is
    selected, the first one that contains a dollar sign and is shorter than
    100 code units, else the first line unless it is empty, else the
    placeholder; the snippet is that line without its markup characters
    and without the white space at its two ends. *)
Theorem extractSnippet_fallback_order (text : jsstring) :
  Js.join Snippet.LF (Js.split Snippet.LF text) = text
  /\ Forall (fun line => Js.includes Snippet.LF line = false)
            (Js.split Snippet.LF text)
  /\ exists line pre post,
       Snippet.selects (Js.split Snippet.LF text) line
       /\ (forall line',
             Snippet.selects (Js.split Snippet.LF text) line' -> line' = line)
       /\ Js.remove_class Snippet.is_markup line
          = pre ++ Snippet.extractSnippet text ++ post
       /\ Forall (fun c => Js.is_space c = true) pre
       /\ Forall (fun c => Js.is_space c = true) post
       /\ Forall (fun c => Snippet.is_markup c = false)
                 (Snippet.extractSnippet text)
       /\ match Snippet.extractSnippet text with
          | c :: _ => Js.is_space c = false
          | [] => True
          end
       /\ match rev (Snippet.extractSnippet text) with
          | c :: _ => Js.is_space c = false
          | [] => True
          end.
Proof.
  split; [apply JsFacts.join_split|]. split; [apply JsFacts.split_lines_free|].
  destruct (SnippetFacts.snippetLine_selected text) as (line & Hsel & ->).
  unfold Snippet.clean.
  destruct (JsFacts.trim_spec (Js.remove_class Snippet.is_markup line))
    as (pre & post & Hcut & Hpre & Hpost & Hhd & Hlast).
  exists line, pre, post. repeat split; try done.
  - intros line' Hsel'. by eapply SnippetFacts.selects_unique.
  - eapply JsFacts.Forall_infix. rewrite <- Hcut.
    apply JsFacts.remove_class_free.
Qed.

(** C5, as stated, fails for a text that is not empty but starts with an
    empty line and has no qualifying line: the code gives the placeholder,
    not the first line. The text here is a line feed followed by [abc]. *)
Lemma extractSnippet_empty_first_line :
  let text := Js.lit (String "010" "abc") in
  Snippet.extractSnippet text = Snippet.placeholder
  /\ ~ exists line,
         Snippet.selects_as_specified text line
         /\ Snippet.extractSnippet text = Snippet.clean line.
Proof.
  split; [by vm_compute|].
  intros (line & Hsel & Heq).
  inversion Hsel as [pre l post E Hpre Hl|l0 rest E Hall Hne|Hempty]; subst.
  - vm_compute in E.
    destruct pre as [|a [|b pre]]; simpl in E; simplify_eq. by destruct pre.
  - vm_compute in E. injection E as <- <-. by vm_compute in Heq.
  - by vm_compute in Hempty.
Qed.

(** ** The history log *)

Module HistoryFacts.

Lemma take_app_take {A} (n m : nat) (l k : list A) :
  n <= m -> take n (l ++ take m k) = take n (l ++ k).
Proof.
  revert n. induction l as [|a l IH]; intros n Hnm; simpl.
  - rewrite take_take. f_equal. lia.
  - destruct n as [|n]; simpl; [done|]. f_equal. apply IH. lia.
Qed.

Lemma insert_all_cons e entries log :
  insert_all (e :: entries) log = insert_all entries (insert_entry e log).
Proof. done. Qed.

(** After at least one insertion the log is the latest 20 of what was
    inserted, newest first, followed by what was there. *)
Lemma insert_all_latest entries log :
  entries <> [] -> insert_all entries log = take 20 (rev entries ++ log).
Proof.
  revert log. induction entries as [|e entries IH]; intros log Hne; [done|].
  rewrite insert_all_cons. destruct entries as [|e' entries]; [done|].
  rewrite IH by done. unfold insert_entry.
  rewrite take_app_take by lia.
  change (rev (e :: e' :: entries)) with (rev (e' :: entries) ++ [e]).
  by rewrite <- app_assoc.
Qed.

Lemma insert_entry_length e log : length (insert_entry e log) <= 20.
Proof. unfold insert_entry. rewrite length_take. lia. Qed.

Lemma insert_all_bounded entries log :
  length log <= 20 -> length (insert_all entries log) <= 20.
Proof.
  revert log. induction entries as [|e entries IH]; intros log Hlog; [done|].
  rewrite insert_all_cons. apply IH, insert_entry_length.
Qed.

End HistoryFacts.

(** C2. Inserting puts the new entry first and cuts the log after 20
    entries, dropping from the end only; whatever is inserted, in whatever
    number, the log holds the latest 20 insertions, newest first, and never
    more than 20 entries; after 21 insertions of distinct entries the first
    one inserted is gone and the last one is at position 0. Solving with
    success is such an insertion. *)
Theorem history_insert_keeps_latest_20
    (entries log : list HistoryEntry) (e : HistoryEntry) :
  insert_entry e log !! 0 = Some e
  /\ (exists dropped,
        e :: log = insert_entry e log ++ dropped
        /\ length dropped = S (length log) - 20)
  /\ length (insert_entry e log) <= 20
  /\ insert_all entries [] = take 20 (rev entries)
  /\ length (insert_all entries []) <= 20
  /\ (length log <= 20 -> length (insert_all entries log) <= 20)
  /\ insert_all (entries ++ [e]) log = take 20 (e :: rev entries ++ log)
  /\ (forall oldest others,
        entries = oldest :: others -> length others = 20 ->
        insert_all entries [] = rev others
        /\ length (insert_all entries []) = 20
        /\ insert_all entries [] !! 0 = last entries
        /\ (NoDup entries -> oldest ∉ insert_all entries []))
  /\ (forall image now result s,
        history (handleSolve_settle image now (Resolved (Some result)) s)
        = insert_entry {| id := now; imageData := image;
                          problemSnippet := Snippet.extractSnippet result;
                          fullSolution := result |} (history s)).
Proof.
  split; [done|]. split.
  { exists (drop 20 (e :: log)). unfold insert_entry.
    rewrite take_drop. split; [done|]. rewrite length_drop. simpl. lia. }
  split; [apply HistoryFacts.insert_entry_length|]. split.
  { destruct entries as [|e0 entries]; [done|].
    rewrite HistoryFacts.insert_all_latest by done. by rewrite app_nil_r. }
  split; [apply HistoryFacts.insert_all_bounded; simpl; lia|].
  split; [apply HistoryFacts.insert_all_bounded|]. split.
  { rewrite HistoryFacts.insert_all_latest by (by destruct entries).
    by rewrite rev_app_distr. }
  split; [|done].
  intros oldest others -> Hlen.
  assert (E : insert_all (oldest :: others) [] = rev others).
  { rewrite HistoryFacts.insert_all_latest by done. rewrite app_nil_r. simpl.
    rewrite take_app_le by (rewrite length_rev; lia).
    apply take_ge. rewrite length_rev. lia. }
  rewrite E. split; [done|]. split; [by rewrite length_rev|]. split.
  - destruct (rev others) as [|x r] eqn:Er.
    { apply (f_equal length) in Er. rewrite length_rev in Er. simpl in Er. lia. }
    assert (others = rev r ++ [x]) as ->.
    { rewrite <- (rev_involutive others), Er. done. }
    simpl. symmetry. rewrite app_comm_cons. apply last_snoc.
  - intros Hnd Hin. apply NoDup_cons in Hnd as [Hnot _]. apply Hnot.
    apply list_elem_of_In, in_rev. by apply list_elem_of_In.
Qed.

(** ** The solver service *)

(** C10, what the code does. Whatever the remote model does with the
    request, return a response or throw, [solveLimitFromImage] resolves
    and never rejects: with a message that ends with the thrown error's
    own message, with a fixed message when what was thrown is not an
    [Error], and else with the response's text as it is. So it resolves
    with [undefined], which is no string, exactly when the response holds
    no text. A string it resolves with also comes from a remote model
    that answers it, so the caller cannot tell a failure from a
    solution. *)
Theorem solveLimitFromImage_always_resolves
    (generateContent : Gemini.RemoteModel) (base64Image mimeType : jsstring) :
  let request :=
    {| Gemini.model := Js.lit "gemini-2.5-flash";
       Gemini.parts :=
         [Gemini.ImagePart
            {| Gemini.inline_mimeType := mimeType;
               Gemini.inline_data := base64Image |};
          Gemini.TextPart Gemini.prompt] |} in
  exists result,
    Gemini.solveLimitFromImage generateContent base64Image mimeType
    = Resolved result
    /\ match generateContent request with
       | Resolved response => result = Gemini.text response
       | Rejected (ThrownError message) =>
           result = Some (Gemini.contact_failure_prefix ++ message)
       | Rejected ThrownOther => result = Some Gemini.unknown_failure
       end
    /\ (result = None <->
        generateContent request = Resolved {| Gemini.text := None |})
    /\ (forall text, result = Some text ->
          Gemini.solveLimitFromImage (answers text) base64Image mimeType
          = Gemini.solveLimitFromImage generateContent base64Image mimeType)
    /\ Gemini.solveLimitFromImage blocked base64Image mimeType = Resolved None.
Proof.
  intros request. subst request.
  unfold Gemini.solveLimitFromImage, answers, blocked.
  destruct (generateContent _) as [[[text|]]|[message|]]; simpl.
  - exists (Some text). do 2 (split; [done|]). split; [done|].
    split; [|done]. by intros ? [= <-].
  - exists None. do 2 (split; [done|]). split; [done|]. by split.
  - exists (Some (Gemini.contact_failure_prefix ++ message)).
    do 2 (split; [done|]). split; [done|]. split; [|done]. by intros ? [= <-].
  - exists (Some Gemini.unknown_failure).
    do 2 (split; [done|]). split; [done|]. split; [|done]. by intros ? [= <-].
Qed.

(** ** Loading the history *)

(** C9, what the code does. The load effect itself always completes, and
    with no stored text, an empty one, one that [JSON.parse] rejects, or a
    storage that throws, [App] comes up running with the empty log; a
    stored array of entries is the log. But a stored text that parses to
    anything else is not treated as absent: the value goes into the
    history cell unchecked, and when it is [null] the render that follows
    throws on [history.length] and [App] does not come up: so it is with
    the stored text [null]. *)
Theorem load_treats_only_unparsable_as_absent
    (B : Browser) (read : StorageRead) :
  (read = GetItemThrows \/ read = GetItemReturns None
   \/ read = GetItemReturns (Some []) ->
   mount B read = Running initial)
  /\ (forall stored,
        read = GetItemReturns (Some stored) -> stored <> [] ->
        match JSON_parse B stored with
        | ParseThrows => mount B read = Running initial
        | ParsedEntries log =>
            mount B read = Running (setHistory (fun _ => log) initial)
        | ParsedNull => mount B read = Crashed
        | ParsedOther => mount B read = RunningUntyped
        end)
  /\ (forall s, mount B read = Running s ->
        s = setHistory (fun _ => history s) initial /\ startup B read = s)
  /\ history initial = []
  /\ mount tampered_browser (GetItemReturns (Some (Js.lit "null"))) = Crashed.
Proof.
  split; [|split; [|split; [|split; [done|by vm_compute]]]].
  - by intros [->|[->| ->]].
  - intros stored -> Hne. unfold mount, loadHistory. simpl.
    destruct stored; [done|]. simpl. by destruct (JSON_parse B _).
  - intros s Hs. unfold startup. rewrite Hs. split; [|done].
    unfold mount in Hs.
    destruct (loadHistory B read (CellEntries (history initial))) as [log| |];
      simpl in Hs; by simplify_eq.
Qed.

(** ** Solving *)

Module SolveFacts.

Lemma contact_failure_prefix_truthy message :
  Js.truthy (Gemini.contact_failure_prefix ++ message) = true.
Proof.
  assert (exists c rest, Gemini.contact_failure_prefix = c :: rest)
    as (c & rest & ->).
  { vm_compute. by eexists _, _. }
  done.
Qed.

Lemma solve_failure_truthy : Js.truthy solve_failure = true.
Proof. by vm_compute. Qed.

(** The [catch] of [handleSolve] does what is specified for a failed
    call, when the awaited promise rejects. *)
Lemma rejected_solve_fails image now reason s :
  let s' := handleSolve_settle image now (Rejected reason) s in
  solveOutcome s' = Failed solve_failure
  /\ error s' = Some solve_failure
  /\ history s' = history s
  /\ problemState s' = problemState s.
Proof.
  split; [|done]. unfold solveOutcome. by simpl.
Qed.

(** The promise [handleSolve] awaits never rejects. *)
Lemma awaited_never_rejects generateContent image :
  forall reason,
    Gemini.solveLimitFromImage generateContent (base64 image) (mimeType image)
    <> Rejected reason.
Proof.
  intros reason. unfold Gemini.solveLimitFromImage.
  by destruct (generateContent _) as [response|[message|]].
Qed.

End SolveFacts.

(** C1, what the code does instead. When the remote model throws an
    error, [handleSolve] on a page that holds an image shows the service's
    message, the thrown error's text included, as the solution, shows no
    error, and inserts it in the history as a solved problem; the image on
    display stays. Without an image nothing happens. *)
Theorem solver_failure_shown_as_solution
    (s : State) (message : jsstring) (now : Z) :
  let shown := Gemini.contact_failure_prefix ++ message in
  let s' := handleSolve (fun _ => Rejected (ThrownError message)) now s in
  match imageBase64 s with
  | None => s' = s
  | Some image =>
      solveOutcome s' = Succeeded shown
      /\ solution s' = Some shown
      /\ error s' = None
      /\ history s'
         = insert_entry {| id := now; imageData := image;
                           problemSnippet := Snippet.extractSnippet shown;
                           fullSolution := shown |} (history s)
      /\ problemState s' = problemState s
  end.
Proof.
  intros shown s'. subst s' shown. unfold handleSolve, handleSolve_start.
  destruct (imageBase64 s) as [image|] eqn:E; [|done].
  split.
  { unfold solveOutcome.
    cbn [isLoading error solution if_set handleSolve_settle
         Gemini.solveLimitFromImage setIsLoading setHistory setSolution
         setError setIsCopied].
    by rewrite (SolveFacts.contact_failure_prefix_truthy message). }
  do 3 (split; [reflexivity|]).
  unfold problemState. simpl. by rewrite E.
Qed.

(** ** The crop session *)

(** C4, as the code has it. Cancelling changes the crop session only: the
    problem on display, the outcome, the solution, the error and the
    history are what they were while the session was open. Opening the
    session by picking a file had already cleared the problem, the
    solution and the error, so after picking and cancelling they are
    absent, whatever they were before. *)
Theorem handleCropCancel_keeps_open_session_state (s : State) (file : Blob) :
  problemState (handleCropCancel s) = problemState s
  /\ solveOutcome (handleCropCancel s) = solveOutcome s
  /\ solution (handleCropCancel s) = solution s
  /\ error (handleCropCancel s) = error s
  /\ history (handleCropCancel s) = history s
  /\ isCropperOpen (handleCropCancel s) = false
  /\ uncroppedImageUrl (handleCropCancel s) = None
  /\ problemState (handleCropCancel (handleImageChange (Some file) s))
     = {| image := None; displayUrl := None |}
  /\ solution (handleCropCancel (handleImageChange (Some file) s)) = None
  /\ error (handleCropCancel (handleImageChange (Some file) s)) = None.
Proof.
  repeat split; try done.
  all: unfold handleImageChange; simpl; by repeat case_match.
Qed.

(** C4, as stated, fails: a page showing a solved problem shows neither
    the problem nor the solution after a file is picked and the crop
    session cancelled. *)
Lemma cancel_does_not_restore :
  let before := solved_page in
  let after := handleCropCancel (handleImageChange (Some photo) before) in
  problemState after <> problemState before
  /\ solveOutcome after <> solveOutcome before
  /\ solveOutcome before = Succeeded (fullSolution (sample_entry 1))
  /\ solveOutcome after = Idle.
Proof. by vm_compute. Qed.

(** ** The history and the page *)

Module PageFacts.

(** The panel shows the selected entry's solution once no request is
    under way, if the solution is not the empty string. *)
Lemma selected_solution_displayed item s :
  isLoading s = false ->
  fullSolution item <> [] ->
  solveOutcome (handleSelectHistoryItem item s)
  = Succeeded (fullSolution item).
Proof.
  intros Hl Hne. unfold solveOutcome. simpl. rewrite Hl.
  by destruct (fullSolution item).
Qed.

End PageFacts.

(** C6, as amended. Selecting an entry sets the image to the entry's,
    the display URL to the data URL of that image, the solution to the
    entry's full solution and the error to none, and leaves the history,
    the registry and the loading flag as they were. The panel then shows
    the loader if a request is under way, nothing if the entry's full
    solution is the empty text, and that solution otherwise. Deleting an
    entry and clearing the history change the history alone: the problem
    and the outcome on display stay, whether or not they came from the
    history. Deleting removes exactly the entries with the given id. *)
Theorem history_actions_frame (item : HistoryEntry) (id0 : Z) (s : State) :
  (let s' := handleSelectHistoryItem item s in
   problemState s'
   = {| image := Some (imageData item);
        displayUrl := Some (DataUrl (mimeType (imageData item))
                                    (base64 (imageData item))) |}
   /\ solution s' = Some (fullSolution item)
   /\ error s' = None
   /\ history s' = history s
   /\ isLoading s' = isLoading s
   /\ urls s' = urls s
   /\ solveOutcome s'
      = if isLoading s then InProgress
        else match fullSolution item with
             | [] => Idle
             | _ :: _ => Succeeded (fullSolution item)
             end)
  /\ (let s' := handleDeleteHistoryEntry id0 s in
      problemState s' = problemState s
      /\ solveOutcome s' = solveOutcome s
      /\ solution s' = solution s
      /\ error s' = error s
      /\ s' = setHistory (fun _ => history s') s
      /\ (forall entry, entry ∈ history s' <-> entry ∈ history s /\ id entry <> id0))
  /\ (let s' := handleClearHistory s in
      problemState s' = problemState s
      /\ solveOutcome s' = solveOutcome s
      /\ solution s' = solution s
      /\ error s' = error s
      /\ s' = setHistory (fun _ => []) s).
Proof.
  split.
  { do 6 (split; [done|]). unfold solveOutcome. simpl.
    destruct (isLoading s); [done|]. by destruct (fullSolution item). }
  split; [|by repeat split].
  do 5 (split; [done|]).
  intros entry. simpl. rewrite list_elem_of_filter. tauto.
Qed.

(** C6, as stated, fails. An entry selected while a request is under
    way: the panel shows the loader, not the entry's solution. An entry
    whose full solution is the empty text: the panel shows nothing. *)
Lemma select_during_solve_shows_loader :
  let s := run lossy_browser [SelectHistoryItem (sample_entry 1); SolveStart]
             initial in
  let s' := handleSelectHistoryItem (sample_entry 2) s in
  s = solving_page
  /\ solveOutcome s' = InProgress
  /\ solveOutcome s' <> Succeeded (fullSolution (sample_entry 2))
  /\ solveOutcome
       (handleSelectHistoryItem
          {| id := 3; imageData := sample_image; problemSnippet := Js.lit "Problem";
             fullSolution := [] |} initial) = Idle.
Proof. by vm_compute. Qed.

(** ** Encoding a crop *)

Module EncodeFacts.

Section WithBrowser.

Variable B : Browser.

(** When [getCroppedImg] resolves: a 2D context was there, the URL is a
    fresh handle for the blob [toBlob] made at quality 1, and the payload
    is the text [toDataURL] made without a quality. *)
Lemma getCroppedImg_resolved image crop mime st payload url st' :
  getCroppedImg B image crop mime st = (Settles (Resolved (payload, url)), st') ->
  context2d B = true
  /\ exists canvas blob,
       toBlob B canvas mime 1 = Some blob
       /\ payload = toDataURL_payload B canvas mime
       /\ (url, st') = createObjectURL blob st.
Proof.
  unfold getCroppedImg. destruct (context2d B); simpl; [|done].
  match goal with
  | |- context [toBlob B ?c mime 1] =>
      destruct (toBlob B c mime 1) as [blob|] eqn:Hblob; [|done];
      intros [= <- <- <-]; split; [done|]; by exists c, blob
  end.
Qed.

(** The MIME type recorded with a confirmed crop is the file's. *)
Lemma confirm_records_file_type cropImageRef s img :
  imageBase64 (handleCropConfirm B cropImageRef s) = Some img ->
  imageBase64 s = Some img \/ originalMimeType s = Some (mimeType img).
Proof.
  unfold handleCropConfirm.
  destruct (completedCrop s); [|by left].
  destruct cropImageRef; [|by left].
  destruct (originalMimeType s) as [mime|]; [|by left].
  destruct (Js.truthy mime); [|by left].
  destruct (getCroppedImg _ _ _ _ _) as [[[[payload url]|]|] st]; simpl;
    [|by left|by left].
  intros [= <-]. by right.
Qed.


End WithBrowser.


End EncodeFacts.




(** ** Display handles and the problem on display *)

Module UrlFacts.

Section WithBrowser.

Variable B : Browser.

Lemma pick_effect file s :
  UrlEffect B s (handleImageChange (Some file) s).
Proof.
  apply eff_pick with file; unfold handleImageChange;
    destruct (imageUrl s), (uncroppedImageUrl s); reflexivity.
Qed.

Lemma crop_effect cropImageRef s :
  UrlEffect B s (handleCropConfirm B cropImageRef s).
Proof.
  unfold handleCropConfirm.
  destruct (completedCrop s) as [crop|]; [|by apply eff_keep; auto].
  destruct cropImageRef as [image|]; [|by apply eff_keep; auto].
  destruct (originalMimeType s) as [mime|]; [|by apply eff_keep; auto].
  destruct (Js.truthy mime); [|by apply eff_keep; auto].
  unfold getCroppedImg.
  destruct (context2d B); simpl; [|by apply eff_keep; auto].
  match goal with
  | |- context [toBlob B ?c mime 1] =>
      destruct (toBlob B c mime 1) as [blob|] eqn:Hblob;
      [by apply eff_crop with c blob mime|by apply eff_keep; auto]
  end.
Qed.

Lemma step_effect e s : UrlEffect B s (step B e s).
Proof.
  destruct e as [[file|]| | | | | | | | |]; simpl.
  - apply pick_effect.
  - by apply eff_keep; auto.
  - by apply eff_keep; auto.
  - apply crop_effect.
  - by apply eff_keep; auto.
  - unfold handleSolve, handleSolve_start, Gemini.solveLimitFromImage.
    destruct (imageBase64 s) eqn:E; [|by apply eff_keep; auto].
    destruct (generateContent _) as [[[?|]]|[?|]]; by apply eff_keep; auto.
  - unfold handleSolve_start.
    destruct (imageBase64 s) eqn:E; by apply eff_keep; auto.
  - destruct awaited as [[?|]|?]; by apply eff_keep; auto.
  - by eapply eff_select.
  - by apply eff_keep; auto.
  - by apply eff_keep; auto.
Qed.

(** *** The registry *)

Lemma next_revoke_opt url st :
  next_handle (revoke_opt url st) = next_handle st.
Proof. by destruct url. Qed.

Lemma revoked_revoke_opt url st :
  revoked (revoke_opt url st) = revoked st ++ option_list url.
Proof. destruct url; simpl; [done|by rewrite app_nil_r]. Qed.

Lemma lookup_revoke_opt url st h :
  url <> Some (ObjectUrl h) ->
  objects (revoke_opt url st) !! h = objects st !! h.
Proof.
  destruct url as [[h'|]|]; simpl; try done.
  intros Hne. apply lookup_delete_ne. congruence.
Qed.

Lemma store_ok_revoke_opt url st : store_ok st -> store_ok (revoke_opt url st).
Proof.
  intros Hok h. rewrite next_revoke_opt. destruct url as [[h'|]|]; simpl; auto.
  intros [b Hb]. apply lookup_delete_Some in Hb as [_ Hb]. eauto.
Qed.

Lemma store_ok_create blob st :
  store_ok st -> store_ok (createObjectURL blob st).2.
Proof.
  intros Hok h. simpl. intros [b Hb].
  apply lookup_insert_Some in Hb as [[<- _]|[_ Hb]]; [lia|].
  specialize (Hok h (ex_intro _ b Hb)). lia.
Qed.

Lemma below_mono st st' u :
  next_handle st <= next_handle st' -> below st u -> below st' u.
Proof. destruct u; simpl; [lia|done]. Qed.

Lemma Forall_below_mono st st' us :
  next_handle st <= next_handle st' ->
  Forall (below st) us -> Forall (below st') us.
Proof.
  intros Hle H. eapply Forall_impl; [exact H|]. intros u. by apply below_mono.
Qed.

Lemma below_option_list st url :
  (forall u, url = Some u -> below st u) -> Forall (below st) (option_list url).
Proof. destruct url; simpl; [|done]. intros H. constructor; auto. Qed.

Lemma filter_none (u : Url) (us : list Url) :
  Forall (fun v => v <> u) us -> filter (fun v => v = u) us = [].
Proof.
  induction 1 as [|v us Hv _ IH]; [done|]. by rewrite filter_cons_False.
Qed.

Lemma below_not_fresh st us :
  Forall (below st) us ->
  Forall (fun v => v <> ObjectUrl (next_handle st)) us.
Proof.
  intros H. eapply Forall_impl; [exact H|].
  intros [h|] Hb; [|done]. simpl in Hb. intros [= ->]. lia.
Qed.

(** *** Handles are given out in order *)

Lemma handles_ok_effect s s' :
  UrlEffect B s s' -> handles_ok s -> handles_ok s'.
Proof.
  intros Heff (Hst & Hi & Hu & Hr). unfold handles_ok.
  destruct Heff as [Eu Eb Ei Ec|item Eu Eb Ei Ec|file Eu Eb Ei Ec
                   |canvas blob mime Hblob Eu Eb Ei Ec].
  - rewrite Eu, Ei. repeat split; try done.
    destruct Ec as [->| ->]; [done|]. by intros u.
  - rewrite Eu, Ei, Ec. repeat split; try done. by intros u [= <-].
  - rewrite Eu, Ei, Ec.
    set (st2 := revoke_opt (uncroppedImageUrl s) (revoke_opt (imageUrl s) (urls s))).
    assert (Hn : next_handle st2 = next_handle (urls s))
      by (subst st2; by rewrite !next_revoke_opt).
    repeat split.
    + apply store_ok_create. subst st2. by do 2 apply store_ok_revoke_opt.
    + by intros u.
    + intros u [= <-]. simpl. lia.
    + simpl. subst st2. rewrite !revoked_revoke_opt.
      apply Forall_below_mono with (urls s); [simpl; rewrite Hn; lia|].
      repeat apply Forall_app_2; auto using below_option_list.
  - rewrite Eu, Ei, Ec. repeat split.
    + by apply store_ok_create.
    + intros u [= <-]. simpl. lia.
    + by intros u.
    + simpl. apply Forall_below_mono with (urls s); [simpl; lia|done].
Qed.

Lemma handles_ok_initial : handles_ok initial.
Proof.
  repeat split; try done. intros h [b Hb]. simpl in Hb. by rewrite lookup_empty in Hb.
Qed.

Lemma handles_ok_startup read : handles_ok (startup B read).
Proof.
  destruct (MountFacts.startup_log B read) as [log ->].
  apply handles_ok_initial.
Qed.

Lemma handles_ok_run events s :
  handles_ok s -> handles_ok (run B events s).
Proof.
  revert s. induction events as [|e events IH]; intros s Hs; [done|].
  simpl. apply IH. eapply handles_ok_effect; [apply step_effect|done].
Qed.

(** *** A forgotten handle stays forgotten *)

Lemma forgotten_effect h blob s s' :
  UrlEffect B s s' -> forgotten h blob s -> forgotten h blob s'.
Proof.
  intros Heff (Hlt & Hi & Hu & Hr & Hb). unfold forgotten, releases in *.
  destruct Heff as [Eu Eb Ei Ec|item Eu Eb Ei Ec|file Eu Eb Ei Ec
                   |canvas blob' mime Hblob Eu Eb Ei Ec].
  - rewrite Eu, Ei. repeat split; try done. by destruct Ec as [->| ->].
  - rewrite Eu, Ei, Ec. by repeat split.
  - rewrite Eu, Ei, Ec. simpl. rewrite !next_revoke_opt.
    repeat split; try done.
    + lia.
    + intros [= ?]. lia.
    + rewrite !revoked_revoke_opt, !filter_app, !length_app, Hr.
      destruct (imageUrl s) as [u|], (uncroppedImageUrl s) as [v|]; simpl;
        rewrite ?filter_cons_False, ?filter_nil by congruence; done.
    + rewrite lookup_insert_ne by lia. by rewrite !lookup_revoke_opt.
  - rewrite Eu, Ei, Ec. simpl. repeat split; try done.
    + lia.
    + intros [= ?]. lia.
    + by rewrite lookup_insert_ne by lia.
Qed.

Lemma forgotten_run h blob events s :
  forgotten h blob s -> forgotten h blob (run B events s).
Proof.
  revert s. induction events as [|e events IH]; intros s Hs; [done|].
  simpl. apply IH. eapply forgotten_effect; [apply step_effect|done].
Qed.

(** Picking a file and cancelling forgets the handle of the picked file. *)
Lemma cancel_forgets file s :
  handles_ok s ->
  forgotten (next_handle (urls s)) file
    (handleCropCancel (handleImageChange (Some file) s)).
Proof.
  intros (Hst & Hi & Hu & Hr). unfold forgotten, releases.
  assert (Hurls : urls (handleCropCancel (handleImageChange (Some file) s))
                  = (createObjectURL file
                       (revoke_opt (uncroppedImageUrl s)
                          (revoke_opt (imageUrl s) (urls s)))).2).
  { unfold handleImageChange.
    by destruct (imageUrl s), (uncroppedImageUrl s). }
  rewrite Hurls. simpl. rewrite !next_revoke_opt.
  repeat split.
  - lia.
  - unfold handleImageChange. by destruct (imageUrl s), (uncroppedImageUrl s).
  - unfold handleImageChange. by destruct (imageUrl s), (uncroppedImageUrl s).
  - rewrite !revoked_revoke_opt. rewrite filter_none; [done|].
    apply below_not_fresh.
    repeat apply Forall_app_2; auto using below_option_list.
  - apply lookup_insert_eq.
Qed.

(** *** The problem on display *)

Lemma consistent_effect s s' :
  UrlEffect B s s' -> ProblemConsistent B s -> ProblemConsistent B s'.
Proof.
  unfold ProblemConsistent.
  intros [Eu Eb Ei Ec|item Eu Eb Ei Ec|file Eu Eb Ei Ec
         |canvas blob mime Hblob Eu Eb Ei Ec] H.
  - by rewrite Eu, Eb, Ei.
  - by rewrite Eb, Ei.
  - by rewrite Eb, Ei.
  - rewrite Eb, Ei, Eu. exists canvas, blob. simpl.
    split; [apply lookup_insert_eq|done].
Qed.

Lemma consistent_startup read : ProblemConsistent B (startup B read).
Proof. by destruct (MountFacts.startup_log B read) as [log ->]. Qed.

Lemma consistent_run events s :
  ProblemConsistent B s -> ProblemConsistent B (run B events s).
Proof.
  revert s. induction events as [|e events IH]; intros s Hs; [done|].
  simpl. apply IH. eapply consistent_effect; [apply step_effect|done].
Qed.

(** With an encoder that ignores the quality, the same picture is the
    same bytes. *)
Lemma same_picture_same_bytes st img u :
  (forall canvas mime quality,
     serialize B canvas mime (Some quality) = serialize B canvas mime None) ->
  same_picture B st img u -> same_bytes B st img u.
Proof.
  intros Hq. destruct u as [h|mime payload]; simpl; [|by intros [_ ->]].
  intros (canvas & blob & Hl & Hb & Hp). exists blob. split; [done|].
  unfold toBlob, toDataURL_payload in *. rewrite Hq in Hb. by rewrite Hb in Hp.
Qed.

End WithBrowser.

End UrlFacts.

(** C3, what the code does instead. The handle made for the picked file
    is never passed to [URL.revokeObjectURL] once the crop session is
    cancelled, whatever happened before and whatever happens afterwards:
    it is revoked zero times and its blob stays registered. *)
Theorem cancelled_crop_handle_never_released
    (B : Browser) (read : StorageRead) (before after : list Event)
    (file : Blob) :
  let s0 := run B before (startup B read) in
  let raw := ObjectUrl (next_handle (urls s0)) in
  let opened := handleImageChange (Some file) s0 in
  let s := run B after (handleCropCancel opened) in
  uncroppedImageUrl opened = Some raw
  /\ isCropperOpen opened = true
  /\ releases raw s = 0
  /\ live raw s
  /\ imageUrl s <> Some raw
  /\ uncroppedImageUrl s <> Some raw.
Proof.
  intros s0 raw opened s.
  assert (Hok : handles_ok s0)
    by apply UrlFacts.handles_ok_run, UrlFacts.handles_ok_startup.
  pose proof (UrlFacts.forgotten_run B _ _ after _
                (UrlFacts.cancel_forgets file s0 Hok))
    as (_ & Hi & Hu & Hr & Hb).
  split; [|split].
  - subst opened. unfold handleImageChange.
    by destruct (imageUrl s0), (uncroppedImageUrl s0).
  - subst opened. unfold handleImageChange.
    by destruct (imageUrl s0), (uncroppedImageUrl s0).
  - split; [exact Hr|]. split; [by exists file|]. by split.
Qed.

(** C8, as the code has it. At every point of a run the display URL is
    present exactly when the encoded image is; a data URL on display is
    built from the image's own MIME type and payload; an object URL on
    display is live and names the blob made at quality 1 from the canvas
    whose serialisation without a quality is the payload. Every event
    keeps this, from any state. Where the encoder ignores the quality, the
    URL names the very bytes of the image. *)
Theorem problem_consistent_at_every_point
    (B : Browser) (read : StorageRead) (events : list Event) :
  let s := run B events (startup B read) in
  (is_Some (imageUrl s) <-> is_Some (imageBase64 s))
  /\ ProblemConsistent B s
  /\ (forall u, imageUrl s = Some u ->
        match u with ObjectUrl _ => live u s | DataUrl _ _ => True end)
  /\ (forall s0 e, ProblemConsistent B s0 -> ProblemConsistent B (step B e s0))
  /\ ((forall canvas mime quality,
         serialize B canvas mime (Some quality) = serialize B canvas mime None)
      -> ProblemInvariant B s).
Proof.
  intros s.
  assert (Hc : ProblemConsistent B s)
    by apply UrlFacts.consistent_run, UrlFacts.consistent_startup.
  split; [|split; [done|split; [|split]]].
  - unfold ProblemConsistent in Hc.
    destruct (imageBase64 s), (imageUrl s); try done; split; eauto.
  - intros u Hu. unfold ProblemConsistent in Hc. rewrite Hu in Hc.
    destruct (imageBase64 s); [|done]. destruct u as [h|]; [|done].
    destruct Hc as (canvas & blob & Hl & _). simpl. by rewrite Hl.
  - intros s0 e. apply UrlFacts.consistent_effect, UrlFacts.step_effect.
  - intros Hq. unfold ProblemInvariant. unfold ProblemConsistent in Hc.
    destruct (imageBase64 s), (imageUrl s); try done.
    by apply UrlFacts.same_picture_same_bytes.
Qed.

(** C8, as stated, fails after a crop is confirmed in a browser whose
    encoder heeds the quality: the payload is the canvas serialised
    without a quality, the blob behind the display URL is the canvas
    serialised at quality 1, and the two differ. *)
Lemma display_blob_differs_from_payload :
  let s := run lossy_browser
             [PickFile (Some photo); CropComplete selection;
              CropConfirm (Some photo_element)]
             (startup lossy_browser (GetItemReturns None)) in
  imageUrl s = Some (ObjectUrl 1)
  /\ objects (urls s) !! 1
     = Some {| blob_bytes := [Byte.x64]; blob_type := Js.lit "image/jpeg" |}
  /\ imageBase64 s
     = Some {| base64 := btoa lossy_browser [Byte.x5c];
               mimeType := Js.lit "image/jpeg" |}
  /\ ~ ProblemInvariant lossy_browser s.
Proof.
  assert (H1 : imageUrl (run lossy_browser
             [PickFile (Some photo); CropComplete selection;
              CropConfirm (Some photo_element)]
             (startup lossy_browser (GetItemReturns None)))
               = Some (ObjectUrl 1)) by by vm_compute.
  assert (H2 : objects (urls (run lossy_browser
             [PickFile (Some photo); CropComplete selection;
              CropConfirm (Some photo_element)]
             (startup lossy_browser (GetItemReturns None)))) !! 1
     = Some {| blob_bytes := [Byte.x64]; blob_type := Js.lit "image/jpeg" |})
    by by vm_compute.
  assert (H3 : imageBase64 (run lossy_browser
             [PickFile (Some photo); CropComplete selection;
              CropConfirm (Some photo_element)]
             (startup lossy_browser (GetItemReturns None)))
     = Some {| base64 := btoa lossy_browser [Byte.x5c];
               mimeType := Js.lit "image/jpeg" |}) by by vm_compute.
  split; [done|]. split; [done|]. split; [done|].
  unfold ProblemInvariant. rewrite H1, H3.
  intros (blob & Hl & Hb). rewrite H2 in Hl. injection Hl as <-.
  by vm_compute in Hb.
Qed.

(** ** Worked runs *)

Module Examples.

(** The heading the prompt asks for becomes the snippet. *)
Example snippet_of_heading :
  Snippet.extractSnippet
    (Js.lit (String.append "## $\lim_{x \to 1} \frac{x^2-1}{x-1}$"
               (String "010" "**Step 1**: factor the numerator.")))
  = Js.lit "$\lim{x \to 1} \frac{x^2-1}{x-1}$".
Proof. by vm_compute. Qed.

Example snippet_of_plain_text :
  Snippet.extractSnippet (Js.lit "  **No math here**  ")
  = Js.lit "No math here".
Proof. by vm_compute. Qed.

Example snippet_of_empty_text :
  Snippet.extractSnippet [] = Js.lit "Problem".
Proof. by vm_compute. Qed.

(** A failed request ends up in the history of an empty log. *)
Example failed_fetch_enters_history :
  let s0 := setImageBase64 (Some sample_image) initial in
  let s := handleSolve network_down 1700000000000 s0 in
  solveOutcome s
  = Succeeded (Gemini.contact_failure_prefix ++ Js.lit "Failed to fetch")
  /\ error s = None
  /\ length (history s0) = 0
  /\ length (history s) = 1.
Proof. by vm_compute. Qed.

(** A crop confirmed and then replaced by a history entry: neither the
    raw image's handle nor the cropped image's was ever revoked. *)
Example confirmed_and_replaced_handles_stay :
  let s := run lossy_browser
             [PickFile (Some photo); CropComplete selection;
              CropConfirm (Some photo_element);
              SelectHistoryItem (sample_entry 1)]
             initial in
  revoked (urls s) = []
  /\ isCropperOpen s = false
  /\ imageUrl s = Some (DataUrl (Js.lit "image/png") (Js.lit "AAAA"))
  /\ is_Some (objects (urls s) !! 0)
  /\ is_Some (objects (urls s) !! 1).
Proof. repeat split; try by vm_compute. all: vm_compute; eauto. Qed.

(** Twenty-one insertions. *)
Example twenty_one_inserts :
  let log := insert_all (List.map sample_entry (List.map Z.of_nat (seq 1 21))) [] in
  length log = 20
  /\ (id <$> log !! 0) = Some 21%Z
  /\ (id <$> last log) = Some 2%Z.
Proof. by vm_compute. Qed.

End Examples.

(** * Further properties *)

(** ** The history under every event *)

Module LogFacts.

(** What one event does to the history: nothing, one insertion of an
    entry whose snippet is derived from its solution, one deletion by id,
    or clearing. *)
Lemma step_history B e s :
  history (step B e s) = history s
  \/ (exists image now result,
        history (step B e s)
        = insert_entry {| id := now; imageData := image;
                          problemSnippet := Snippet.extractSnippet result;
                          fullSolution := result |} (history s))
  \/ (exists id0,
        history (step B e s)
        = filter (fun entry => id entry <> id0) (history s))
  \/ history (step B e s) = [].
Proof.
  destruct e as [[file|]| |ref| |generateContent now| |image now awaited|item|id0|];
    simpl.
  - left. unfold handleImageChange.
    by destruct (imageUrl s), (uncroppedImageUrl s).
  - by left.
  - by left.
  - left. unfold handleCropConfirm.
    destruct (completedCrop s); [|done]. destruct ref; [|done].
    destruct (originalMimeType s) as [mime|]; [|done].
    destruct (Js.truthy mime); [|done].
    by destruct (getCroppedImg _ _ _ _ _) as [[[[payload url]|]|] st].
  - by left.
  - unfold handleSolve, handleSolve_start.
    destruct (imageBase64 s) as [image|]; [|by left].
    destruct (Gemini.solveLimitFromImage _ _ _) as [[result|]|reason] eqn:E;
      [|by left|by left].
    right; left. by exists image, now, result.
  - left. unfold handleSolve_start. by destruct (imageBase64 s).
  - destruct awaited as [[result|]|reason]; [|by left|by left].
    right; left. by exists image, now, result.
  - by left.
  - right; right; left. by exists id0.
  - by do 3 right.
Qed.

(** A property of logs that insertion of derived entries, deletion and
    clearing keep holds throughout a run. *)
Lemma run_history (P : list HistoryEntry -> Prop) B events s :
  P [] ->
  (forall log entry,
     problemSnippet entry = Snippet.extractSnippet (fullSolution entry) ->
     P log -> P (insert_entry entry log)) ->
  (forall log id0, P log -> P (filter (fun entry => id entry <> id0) log)) ->
  P (history s) -> P (history (run B events s)).
Proof.
  intros Hnil Hins Hdel. revert s.
  induction events as [|e events IH]; intros s Hs; [done|].
  simpl. apply IH.
  destruct (step_history B e s) as [->|[(image & now & result & ->)
                                    |[(id0 & ->)| ->]]]; auto.
Qed.

End LogFacts.

(** X1. Deleting an id no entry has leaves the whole page as it is. *)
Theorem delete_absent_id_changes_nothing (id0 : Z) (s : State) :
  Forall (fun entry => id entry <> id0) (history s) ->
  handleDeleteHistoryEntry id0 s = s.
Proof.
  intros Habsent. destruct s. unfold handleDeleteHistoryEntry, setHistory.
  simpl in *. f_equal.
  induction Habsent as [|entry log Hentry _ IH]; [done|].
  rewrite filter_cons_True by done. by rewrite IH.
Qed.

Lemma delete_absent_id_changes_nothing_witness :
  let s := setHistory (fun _ => [sample_entry 1; sample_entry 2]) solved_page in
  Forall (fun entry => id entry <> 3%Z) (history s)
  /\ handleDeleteHistoryEntry 3 s = s.
Proof.
  assert (H : Forall (fun entry => id entry <> 3%Z)
                (history (setHistory (fun _ => [sample_entry 1; sample_entry 2])
                            solved_page)))
    by (repeat constructor; done).
  split; [exact H|].
  exact (delete_absent_id_changes_nothing 3 _ H).
Defined.


(** X3. A log of at most 20 entries stays at most 20 entries long through
    every run of events: solving, selecting, deleting, clearing, picking
    and cropping. *)
Theorem history_bounded_in_every_run
    (B : Browser) (events : list Event) (s : State) :
  length (history s) <= 20 ->
  length (history (run B events s)) <= 20.
Proof.
  apply (LogFacts.run_history (fun log => length log <= 20)).
  - simpl. lia.
  - intros log entry _ _. unfold insert_entry. rewrite length_take. lia.
  - intros log id0 Hlog. pose proof (length_filter (fun entry => id entry <> id0) log). lia.
Qed.

Lemma history_bounded_in_every_run_witness :
  let events := [Solve (answers (Js.lit "## $x$")) 7;
                 DeleteHistoryEntry 1; SelectHistoryItem (sample_entry 1)] in
  length (history solved_page) <= 20
  /\ length (history (run lossy_browser events solved_page)) <= 20.
Proof.
  assert (H : length (history solved_page) <= 20) by (vm_compute; lia).
  split; [exact H|].
  exact (history_bounded_in_every_run lossy_browser _ solved_page H).
Defined.

(** X4. If the snippet of every entry is the one extracted from its full
    solution, that stays so through every run: entries are only made by a
    solve, which derives the snippet, and are never changed. *)
Theorem snippets_stay_derived (B : Browser) (events : list Event) (s : State) :
  snippets_derived (history s) ->
  snippets_derived (history (run B events s)).
Proof.
  apply (LogFacts.run_history snippets_derived).
  - constructor.
  - intros log entry Hentry Hlog. unfold insert_entry.
    apply Forall_take. by constructor.
  - intros log id0 Hlog. unfold snippets_derived.
    apply Forall_forall. intros x [_ Hx]%list_elem_of_filter.
    revert x Hx. by apply Forall_forall.
Qed.

Lemma snippets_stay_derived_witness :
  let s := startup lossy_browser (GetItemReturns None) in
  let events := [PickFile (Some photo); CropComplete selection;
                 CropConfirm (Some photo_element);
                 Solve (answers (Js.lit "## $x$")) 7] in
  snippets_derived (history s)
  /\ snippets_derived (history (run lossy_browser events s)).
Proof.
  assert (H : snippets_derived (history (startup lossy_browser (GetItemReturns None))))
    by constructor.
  split; [exact H|].
  exact (snippets_stay_derived lossy_browser _ _ H).
Defined.

(** ** The snippet as a label *)

Module LabelFacts.

Lemma includes_false c s :
  Js.includes c s = false <-> Forall (fun x => x <> c) s.
Proof.
  unfold Js.includes. induction s as [|x s IH]; simpl.
  - split; [by constructor|done].
  - rewrite orb_false_iff, IH. destruct (N.eqb_spec c x) as [->|Hne]; split.
    + by intros [? _].
    + intros H. by inversion H.
    + intros [_ H]. by constructor.
    + intros H. by inversion H.
Qed.

Lemma split_line_length sep s line :
  line ∈ Js.split sep s -> length line <= length s.
Proof.
  revert line. induction s as [|c rest IH]; intros line; simpl.
  - intros ->%list_elem_of_singleton. done.
  - destruct (N.eqb_spec c sep) as [->|Hne].
    + intros [->|Hin]%elem_of_cons; simpl; [lia|]. specialize (IH _ Hin). lia.
    + pose proof (JsFacts.split_nonempty sep rest) as Hn.
      destruct (Js.split sep rest) as [|l ls]; [done|].
      intros [->|Hin]%elem_of_cons; simpl.
      * assert (length l <= length rest) by (apply IH; by left). lia.
      * assert (length line <= length rest) by (apply IH; by right). lia.
Qed.

(** Cleaning shortens, and adds no code unit. *)
Lemma clean_part line :
  length (Snippet.clean line) <= length line
  /\ forall c, c ∈ Snippet.clean line -> c ∈ line.
Proof.
  unfold Snippet.clean.
  destruct (JsFacts.trim_spec (Js.remove_class Snippet.is_markup line))
    as (pre & post & Hcut & _).
  assert (Hin : forall c, c ∈ Js.remove_class Snippet.is_markup line -> c ∈ line).
  { intros c. unfold Js.remove_class. rewrite !list_elem_of_In, filter_In. tauto. }
  assert (Hlen : length (Js.remove_class Snippet.is_markup line) <= length line).
  { unfold Js.remove_class. apply filter_length_le. }
  split.
  - rewrite Hcut, !length_app in Hlen. lia.
  - intros c Hc. apply Hin. rewrite Hcut. set_solver.
Qed.

Lemma selected_line_cases text line :
  Snippet.selects (Js.split Snippet.LF text) line ->
  line ∈ Js.split Snippet.LF text \/ line = Snippet.placeholder.
Proof.
  intros [pre l post E _ _|l0 rest E _ _|rest E _]; [left|left|by right].
  - rewrite E. set_solver.
  - rewrite E. set_solver.
Qed.

Lemma placeholder_one_line :
  Js.includes Snippet.LF Snippet.placeholder = false.
Proof. by vm_compute. Qed.

End LabelFacts.

(** X5. The snippet is a single line: it holds no line feed. When some
    line of the text qualifies it is shorter than 100 code units; in the
    fallback no ceiling applies, and the snippet is as long as the cleaned
    first line, never longer than the text or the placeholder. *)
Theorem snippet_is_one_line (text : jsstring) :
  Js.includes Snippet.LF (Snippet.extractSnippet text) = false
  /\ ((exists line,
         line ∈ Js.split Snippet.LF text /\ Snippet.qualifies line = true) ->
      length (Snippet.extractSnippet text) < 100)
  /\ length (Snippet.extractSnippet text)
     <= Nat.max (length text) (length Snippet.placeholder).
Proof.
  destruct (SnippetFacts.snippetLine_selected text) as (line & Hsel & ->).
  destruct (LabelFacts.clean_part line) as [Hlen Hin].
  split; [|split].
  - apply LabelFacts.includes_false, Forall_forall. intros c Hc%Hin.
    destruct (LabelFacts.selected_line_cases _ _ Hsel) as [Hline| ->].
    + pose proof (JsFacts.split_lines_free Snippet.LF text) as Hfree.
      rewrite Forall_forall in Hfree. specialize (Hfree _ Hline).
      apply LabelFacts.includes_false in Hfree.
      rewrite Forall_forall in Hfree. by apply Hfree.
    + pose proof LabelFacts.placeholder_one_line as Hp.
      apply LabelFacts.includes_false in Hp.
      rewrite Forall_forall in Hp. by apply Hp.
  - intros (l & Hl & Hq).
    destruct Hsel as [pre x post E _ Hx|l0 rest E Hall _|rest E Hall].
    + unfold Snippet.qualifies in Hx. apply andb_true_iff in Hx as [_ Hx].
      apply Nat.ltb_lt in Hx. lia.
    + rewrite Forall_forall in Hall. specialize (Hall _ Hl). congruence.
    + rewrite Forall_forall in Hall. specialize (Hall _ Hl). congruence.
  - destruct (LabelFacts.selected_line_cases _ _ Hsel) as [Hline| ->].
    + apply LabelFacts.split_line_length in Hline. lia.
    + lia.
Qed.

(** ** The crop session and its handles in every run *)

Module SessionFacts.

Section WithBrowser.

Variable B : Browser.

(** What one event does to the crop session: nothing, closing, or
    opening. *)
Lemma step_session e s :
  (isCropperOpen (step B e s) = isCropperOpen s
   /\ uncroppedImageUrl (step B e s) = uncroppedImageUrl s
   /\ originalMimeType (step B e s) = originalMimeType s)
  \/ (isCropperOpen (step B e s) = false
      /\ uncroppedImageUrl (step B e s) = None
      /\ originalMimeType (step B e s) = originalMimeType s)
  \/ (isCropperOpen (step B e s) = true
      /\ is_Some (uncroppedImageUrl (step B e s))
      /\ is_Some (originalMimeType (step B e s))).
Proof.
  destruct e as [[file|]| |ref| |generateContent now| |image now awaited|item|id0|];
    simpl.
  - right; right. unfold handleImageChange.
    destruct (imageUrl s), (uncroppedImageUrl s); simpl; eauto.
  - by left.
  - by left.
  - unfold handleCropConfirm.
    destruct (completedCrop s); [|by left]. destruct ref; [|by left].
    destruct (originalMimeType s) as [mime|] eqn:Em; [|by left].
    destruct (Js.truthy mime); [|by left].
    destruct (getCroppedImg _ _ _ _ _) as [[[[payload url]|]|] st]; simpl;
      rewrite ?Em; auto.
  - right; by left.
  - left. unfold handleSolve, handleSolve_start.
    destruct (imageBase64 s); [|done].
    by destruct (Gemini.solveLimitFromImage _ _ _) as [[?|]|?].
  - left. unfold handleSolve_start. by destruct (imageBase64 s).
  - left. by destruct awaited as [[?|]|?].
  - by left.
  - by left.
  - by left.
Qed.

Lemma session_ok_step e s : session_ok s -> session_ok (step B e s).
Proof.
  intros [Hopen Hmime]. unfold session_ok.
  destruct (step_session e s) as [(-> & -> & ->)|[(-> & -> & _)|(-> & Hu & Hm)]].
  - done.
  - split; [split; [done|by intros [? ?]]|done].
  - done.
Qed.

Lemma session_ok_startup read : session_ok (startup B read).
Proof.
  destruct (MountFacts.startup_log B read) as [log ->].
  split; [split; [done|by intros [? ?]]|done].
Qed.

(** *** Releases *)

Lemma releases_option_list (u : Url) (url : option Url) :
  length (filter (fun v => v = u) (option_list url))
  = if decide (url = Some u) then 1 else 0.
Proof.
  destruct url as [v|]; simpl; [|done].
  destruct (decide (v = u)) as [->|Hne].
  - rewrite filter_cons_True by done. by rewrite decide_True.
  - rewrite filter_cons_False by done. rewrite decide_False; [done|congruence].
Qed.

Lemma lookup_revoke_opt_None url st h :
  url = Some (ObjectUrl h) \/ objects st !! h = None ->
  objects (revoke_opt url st) !! h = None.
Proof.
  intros [->|Hnone]; simpl; [apply lookup_delete_eq|].
  destruct url as [[h'|]|]; simpl; try done.
  apply lookup_delete_None. by right.
Qed.

Lemma fresh_unreleased s :
  handles_ok s -> releases (ObjectUrl (next_handle (urls s))) s = 0.
Proof.
  intros (_ & _ & _ & Hr). unfold releases.
  rewrite UrlFacts.filter_none; [done|]. by apply UrlFacts.below_not_fresh.
Qed.

Lemma held_below s u : handles_ok s -> held u s -> below (urls s) u.
Proof. intros (_ & Hi & Hu & _) [H|H]; auto. Qed.

Lemma release_ok_effect s s' :
  UrlEffect B s s' -> handles_ok s -> release_ok s -> release_ok s'.
Proof.
  intros Heff Hok (Hmax & Hheld & Hgone & Hdiff).
  pose proof (fresh_unreleased s Hok) as Hfresh.
  assert (Hnext : forall u, held u s -> u <> ObjectUrl (next_handle (urls s))).
  { intros u Hu ->. apply (held_below s _ Hok) in Hu. simpl in Hu. lia. }
  unfold release_ok, held, releases in *.
  destruct Heff as [Eu Eb Ei Ec|item Eu Eb Ei Ec|file Eu Eb Ei Ec
                   |canvas blob mime Hblob Eu Eb Ei Ec];
    rewrite ?Eu, ?Ei.
  - split; [done|]. split; [|split; [done|]].
    + intros h [H|H]; apply Hheld; [by left|].
      destruct Ec as [Ec|Ec]; rewrite Ec in H; [by right|done].
    + intros h Hh. destruct Ec as [->| ->]; [by apply Hdiff|done].
  - rewrite Ec. split; [done|]. split; [|split; [done|done]].
    intros h [H|H]; [done|]. apply Hheld. by right.
  - rewrite Ec. simpl.
    rewrite !UrlFacts.revoked_revoke_opt, !UrlFacts.next_revoke_opt.
    assert (Hcount : forall h,
      length (filter (fun v => v = ObjectUrl h)
                ((revoked (urls s) ++ option_list (imageUrl s))
                 ++ option_list (uncroppedImageUrl s)))
      = length (filter (fun v => v = ObjectUrl h) (revoked (urls s)))
        + (if decide (imageUrl s = Some (ObjectUrl h)) then 1 else 0)
        + (if decide (uncroppedImageUrl s = Some (ObjectUrl h)) then 1 else 0)).
    { intros h. by rewrite !filter_app, !length_app, !releases_option_list. }
    assert (Hcount_next :
      length (filter (fun v => v = ObjectUrl (next_handle (urls s)))
                ((revoked (urls s) ++ option_list (imageUrl s))
                 ++ option_list (uncroppedImageUrl s))) = 0).
    { rewrite Hcount, Hfresh.
      rewrite !decide_False; [done| |]; intros H; eapply Hnext; eauto. }
    split; [|split; [|split]].
    + intros h. rewrite Hcount.
      destruct (decide (imageUrl s = Some (ObjectUrl h))) as [Hi|Hi];
        destruct (decide (uncroppedImageUrl s = Some (ObjectUrl h))) as [Hu|Hu].
      * by destruct (Hdiff h Hi).
      * destruct (Hheld h (or_introl Hi)) as [-> _]. lia.
      * destruct (Hheld h (or_intror Hu)) as [-> _]. lia.
      * specialize (Hmax h). lia.
    + intros h [H|[= <-]]; [done|]. split; [done|].
      rewrite lookup_insert_eq. eauto.
    + intros h Hpos.
      assert (h <> next_handle (urls s)) as Hne.
      { intros ->. rewrite Hcount_next in Hpos. lia. }
      rewrite Hcount in Hpos.
      rewrite lookup_insert_ne by done.
      destruct (decide (uncroppedImageUrl s = Some (ObjectUrl h))) as [Hu|Hu];
        [apply lookup_revoke_opt_None; by left|].
      apply lookup_revoke_opt_None. right.
      destruct (decide (imageUrl s = Some (ObjectUrl h))) as [Hi|Hi];
        [apply lookup_revoke_opt_None; by left|].
      apply lookup_revoke_opt_None. right. apply Hgone. lia.
    + done.
  - rewrite Ec. simpl. split; [done|]. split; [|split; [|done]].
    + intros h [[= <-]|H]; [|done]. split; [done|].
      rewrite lookup_insert_eq. eauto.
    + intros h Hpos.
      assert (h <> next_handle (urls s)) as Hne
        by (intros ->; rewrite Hfresh in Hpos; lia).
      rewrite lookup_insert_ne by done. by apply Hgone.
Qed.

Lemma release_ok_initial : release_ok initial.
Proof.
  split; [intros h; vm_compute; lia|]. split; [by intros h [H|H]|].
  split; [|done]. intros h Hpos. vm_compute in Hpos. lia.
Qed.

Lemma release_ok_startup read : release_ok (startup B read).
Proof.
  destruct (MountFacts.startup_log B read) as [log ->].
  apply release_ok_initial.
Qed.

Lemma ok_run events s :
  handles_ok s /\ release_ok s /\ session_ok s ->
  handles_ok (run B events s) /\ release_ok (run B events s)
  /\ session_ok (run B events s).
Proof.
  revert s. induction events as [|e events IH]; intros s (Hh & Hr & Hs); [done|].
  simpl. apply IH. split; [|split].
  - eapply UrlFacts.handles_ok_effect; [apply UrlFacts.step_effect|done].
  - eapply release_ok_effect; [apply UrlFacts.step_effect|done|done].
  - by apply session_ok_step.
Qed.

Lemma ok_reachable read events :
  let s := run B events (startup B read) in
  handles_ok s /\ release_ok s /\ session_ok s.
Proof.
  apply ok_run. split; [apply UrlFacts.handles_ok_startup|].
  split; [apply release_ok_startup|apply session_ok_startup].
Qed.

End WithBrowser.

End SessionFacts.

(** X6. At every point of a run the cropper is open exactly when the page
    holds a pending image URL, and while it is open the MIME type of the
    picked file is recorded. *)
Theorem cropper_open_iff_pending_image
    (B : Browser) (read : StorageRead) (events : list Event) :
  let s := run B events (startup B read) in
  (isCropperOpen s = true <-> is_Some (uncroppedImageUrl s))
  /\ (isCropperOpen s = true -> is_Some (originalMimeType s)).
Proof. apply SessionFacts.ok_reachable. Qed.

(** X7. At every point of a run: no object URL has been revoked more than
    once; an object URL the page holds, on display or pending in the
    cropper, has never been revoked and its blob is registered; the blob
    of a revoked URL is gone; the display and the cropper never hold the
    same handle. *)
Theorem no_double_release_no_use_after_release
    (B : Browser) (read : StorageRead) (events : list Event) :
  let s := run B events (startup B read) in
  (forall h, releases (ObjectUrl h) s <= 1)
  /\ (forall h, held (ObjectUrl h) s ->
        releases (ObjectUrl h) s = 0 /\ is_Some (objects (urls s) !! h))
  /\ (forall h, 0 < releases (ObjectUrl h) s -> objects (urls s) !! h = None)
  /\ (forall h, imageUrl s = Some (ObjectUrl h) ->
        uncroppedImageUrl s <> Some (ObjectUrl h)).
Proof. apply SessionFacts.ok_reachable. Qed.

(** X8. Picking a file releases what the page holds at that moment: an
    object URL on display or pending in the cropper is revoked exactly
    once by the pick, its blob is dropped, and the page holds it no
    more. *)
Theorem pick_releases_held_handle
    (B : Browser) (read : StorageRead) (events : list Event)
    (file : Blob) (h : nat) :
  let s := run B events (startup B read) in
  let s' := handleImageChange (Some file) s in
  held (ObjectUrl h) s ->
  releases (ObjectUrl h) s' = 1
  /\ objects (urls s') !! h = None
  /\ ~ held (ObjectUrl h) s'.
Proof.
  intros s s' Hheld.
  destruct (SessionFacts.ok_reachable B read events) as (Hok & Hrel & _).
  fold s in Hok, Hrel.
  pose proof (SessionFacts.release_ok_effect B s s'
                (UrlFacts.pick_effect B file s) Hok Hrel)
    as (Hmax' & Hheld' & Hgone' & _).
  destruct Hrel as (_ & Hh & _ & Hdiff).
  destruct (Hh h Hheld) as [Hzero _].
  assert (Hone : releases (ObjectUrl h) s' = 1).
  { unfold releases in *. subst s'. unfold handleImageChange.
    destruct Hheld as [Hi|Hu].
    - specialize (Hdiff h Hi). rewrite Hi.
      destruct (uncroppedImageUrl s) as [u|] eqn:Eu; simpl;
        rewrite !filter_app, !length_app, Hzero; simpl.
      + rewrite filter_cons_True by done.
        rewrite (filter_cons_False _ u) by congruence. done.
      + by rewrite filter_cons_True by done.
    - rewrite Hu.
      destruct (imageUrl s) as [u|] eqn:Ei; simpl;
        rewrite !filter_app, !length_app, Hzero; simpl.
      + rewrite (filter_cons_False _ u)
          by (intros ->; by apply (Hdiff h)).
        by rewrite filter_cons_True by done.
      + by rewrite filter_cons_True by done. }
  split; [done|]. split; [apply Hgone'; lia|].
  intros Hstill. destruct (Hheld' h Hstill) as [Hz _]. lia.
Qed.

Lemma pick_releases_held_handle_witness :
  let events := [PickFile (Some photo); CropComplete selection;
                 CropConfirm (Some photo_element)] in
  let s := run lossy_browser events (startup lossy_browser (GetItemReturns None)) in
  let s' := handleImageChange (Some photo) s in
  held (ObjectUrl 1) s
  /\ releases (ObjectUrl 1) s' = 1
  /\ objects (urls s') !! 1 = None
  /\ ~ held (ObjectUrl 1) s'.
Proof.
  assert (H : held (ObjectUrl 1)
                (run lossy_browser
                   [PickFile (Some photo); CropComplete selection;
                    CropConfirm (Some photo_element)]
                   (startup lossy_browser (GetItemReturns None))))
    by (left; by vm_compute).
  split; [exact H|].
  exact (pick_releases_held_handle lossy_browser (GetItemReturns None) _ photo 1 H).
Defined.

(** ** Confirming a crop *)

Module ConfirmFacts.

Lemma startup_shape B read :
  startup B read = setHistory (fun _ => history (startup B read)) initial.
Proof. by destruct (MountFacts.startup_log B read) as [log ->]. Qed.

Lemma confirm_without_crop B ref s :
  completedCrop s = None -> handleCropConfirm B ref s = s.
Proof. unfold handleCropConfirm. by intros ->. Qed.

(** Without [onComplete], no event sets the completed crop or puts an
    object URL on display. *)
Lemma step_without_complete B e s :
  is_crop_complete e = false ->
  completedCrop s = None ->
  (forall h, imageUrl s <> Some (ObjectUrl h)) ->
  completedCrop (step B e s) = None
  /\ (forall h, imageUrl (step B e s) <> Some (ObjectUrl h)).
Proof.
  intros He Hc Hi.
  destruct e as [[file|]| |ref| |generateContent now| |image now awaited|item|id0|];
    simpl in *; try done.
  - unfold handleImageChange.
    by destruct (imageUrl s), (uncroppedImageUrl s).
  - by rewrite confirm_without_crop.
  - unfold handleSolve, handleSolve_start.
    destruct (imageBase64 s); [|done].
    by destruct (Gemini.solveLimitFromImage _ _ _) as [[?|]|?].
  - unfold handleSolve_start. by destruct (imageBase64 s).
  - by destruct awaited as [[?|]|?].
Qed.

End ConfirmFacts.

(** X9. The confirm button needs the crop widget's [onComplete]: in a
    run from start-up in which the widget never reported a completed crop,
    no crop is recorded, confirming changes nothing, so the cropper stays
    as it is, and no cropped picture is ever on display. *)
Theorem confirm_needs_completed_crop
    (B : Browser) (read : StorageRead) (events : list Event)
    (ref : option HTMLImageElement) :
  Forall (fun e => is_crop_complete e = false) events ->
  let s := run B events (startup B read) in
  completedCrop s = None
  /\ handleCropConfirm B ref s = s
  /\ (forall h, imageUrl s <> Some (ObjectUrl h)).
Proof.
  intros Hev s.
  assert (H : completedCrop s = None /\ forall h, imageUrl s <> Some (ObjectUrl h)).
  { subst s.
    assert (H0 : completedCrop (startup B read) = None
                 /\ forall h, imageUrl (startup B read) <> Some (ObjectUrl h))
      by (by rewrite ConfirmFacts.startup_shape).
    revert H0. generalize (startup B read).
    induction Hev as [|e events He _ IH]; intros s0 [Hc Hi]; [done|].
    simpl. apply IH. by apply ConfirmFacts.step_without_complete. }
  destruct H as [Hc Hi]. split; [done|]. split; [|done].
  by apply ConfirmFacts.confirm_without_crop.
Qed.

Lemma confirm_needs_completed_crop_witness :
  let events := [PickFile (Some photo)] in
  let s := run lossy_browser events (startup lossy_browser (GetItemReturns None)) in
  Forall (fun e => is_crop_complete e = false) events
  /\ completedCrop s = None
  /\ handleCropConfirm lossy_browser (Some photo_element) s = s
  /\ (forall h, imageUrl s <> Some (ObjectUrl h)).
Proof.
  assert (H : Forall (fun e => is_crop_complete e = false)
                [PickFile (Some photo)]) by (by repeat constructor).
  split; [exact H|].
  exact (confirm_needs_completed_crop lossy_browser (GetItemReturns None) _
           (Some photo_element) H).
Defined.

(** X10. When the browser gives no 2D context, confirming a crop shows
    the fixed crop error and closes the cropper; the problem, the
    solution, the history and the URL registry stay as they were, so no
    picture is set and the pending image's handle is not revoked. *)
Theorem confirm_without_context_fails
    (B : Browser) (image : HTMLImageElement) (crop : PixelCrop)
    (mime : jsstring) (s : State) :
  context2d B = false ->
  completedCrop s = Some crop ->
  originalMimeType s = Some mime ->
  mime <> [] ->
  let s' := handleCropConfirm B (Some image) s in
  error s' = Some crop_failure
  /\ isCropperOpen s' = false
  /\ uncroppedImageUrl s' = None
  /\ problemState s' = problemState s
  /\ solution s' = solution s
  /\ history s' = history s
  /\ urls s' = urls s.
Proof.
  intros Hctx Hcrop Hmime Hne s'. subst s'.
  unfold handleCropConfirm, getCroppedImg. rewrite Hcrop, Hmime, Hctx.
  by destruct mime.
Qed.

Lemma confirm_without_context_fails_witness :
  let s := cropping_page in
  let s' := handleCropConfirm contextless_browser (Some photo_element) s in
  context2d contextless_browser = false
  /\ completedCrop s = Some selection
  /\ originalMimeType s = Some (Js.lit "image/jpeg")
  /\ Js.lit "image/jpeg" <> []
  /\ error s' = Some crop_failure
  /\ isCropperOpen s' = false
  /\ uncroppedImageUrl s' = None
  /\ problemState s' = problemState s
  /\ solution s' = solution s
  /\ history s' = history s
  /\ urls s' = urls s.
Proof.
  assert (H1 : context2d contextless_browser = false) by reflexivity.
  assert (H2 : completedCrop cropping_page = Some selection) by reflexivity.
  assert (H3 : originalMimeType cropping_page = Some (Js.lit "image/jpeg"))
    by reflexivity.
  assert (H4 : Js.lit "image/jpeg" <> []) by (by vm_compute).
  do 4 (split; [assumption|]).
  exact (confirm_without_context_fails contextless_browser photo_element
           selection (Js.lit "image/jpeg") cropping_page H1 H2 H3 H4).
Defined.



(** X12. A picked file whose [type] is the empty string cannot be
    confirmed: with any selection and any browser, confirming leaves the
    cropper open on it and changes nothing. *)
Theorem untyped_file_cannot_be_confirmed
    (B : Browser) (file : Blob) (crop : PixelCrop)
    (ref : option HTMLImageElement) (s : State) :
  blob_type file = [] ->
  let opened := setCompletedCrop (Some crop) (handleImageChange (Some file) s) in
  isCropperOpen opened = true
  /\ originalMimeType opened = Some []
  /\ handleCropConfirm B ref opened = opened.
Proof.
  intros Htype opened. subst opened. unfold handleImageChange.
  destruct (imageUrl s), (uncroppedImageUrl s); simpl;
    unfold handleCropConfirm; simpl; rewrite Htype; by destruct ref.
Qed.

Lemma untyped_file_cannot_be_confirmed_witness :
  let opened :=
    setCompletedCrop (Some selection)
      (handleImageChange (Some untyped_file) solved_page) in
  blob_type untyped_file = []
  /\ isCropperOpen opened = true
  /\ originalMimeType opened = Some []
  /\ handleCropConfirm lossy_browser (Some photo_element) opened = opened.
Proof.
  assert (H : blob_type untyped_file = []) by reflexivity.
  split; [exact H|].
  exact (untyped_file_cannot_be_confirmed lossy_browser untyped_file selection
           (Some photo_element) solved_page H).
Defined.

(** ** From a picked file to a recorded solution *)



(** X14. On a page that holds an image, a request the remote model
    answers sets the solution to the answer word for word, clears the
    error, the loading flag and the copied flag, keeps the problem, and
    puts one entry for it in front of the history. An empty answer is
    recorded all the same, under the snippet [Problem], while the panel
    shows nothing. *)
Theorem answer_shown_verbatim_and_recorded
    (s : State) (image : ImageData) (answer : jsstring) (now : Z) :
  imageBase64 s = Some image ->
  let s' := handleSolve (answers answer) now s in
  solution s' = Some answer
  /\ error s' = None
  /\ isLoading s' = false
  /\ isCopied s' = false
  /\ problemState s' = problemState s
  /\ history s'
     = insert_entry {| id := now; imageData := image;
                       problemSnippet := Snippet.extractSnippet answer;
                       fullSolution := answer |} (history s)
  /\ solveOutcome s'
     = match answer with [] => Idle | _ :: _ => Succeeded answer end
  /\ (answer = [] ->
      problemSnippet <$> history s' !! 0 = Some Snippet.placeholder).
Proof.
  intros Himage s'. subst s'. unfold handleSolve, handleSolve_start.
  rewrite Himage. simpl.
  do 4 (split; [done|]). split; [unfold problemState; simpl; by rewrite Himage|].
  split; [done|]. split; [by destruct answer|]. by intros ->.
Qed.

Lemma answer_shown_verbatim_and_recorded_witness :
  let s' := handleSolve (answers []) 7 solved_page in
  imageBase64 solved_page = Some sample_image
  /\ solution s' = Some []
  /\ error s' = None
  /\ isLoading s' = false
  /\ isCopied s' = false
  /\ problemState s' = problemState solved_page
  /\ history s'
     = insert_entry {| id := 7; imageData := sample_image;
                       problemSnippet := Snippet.extractSnippet [];
                       fullSolution := [] |} (history solved_page)
  /\ solveOutcome s' = Idle
  /\ ([] = [] :> jsstring ->
      problemSnippet <$> history s' !! 0 = Some Snippet.placeholder).
Proof.
  assert (H : imageBase64 solved_page = Some sample_image) by reflexivity.
  split; [exact H|].
  exact (answer_shown_verbatim_and_recorded solved_page sample_image [] 7 H).
Defined.

(** X15. An answer that arrives after the problem on display was
    replaced from the history is applied all the same: the page shows the
    selected entry's image with the answer to the earlier image as its
    solution, and the history gets an entry pairing the answer with the
    earlier image. *)
Theorem late_answer_lands_on_replaced_problem
    (B : Browser) (s : State) (earlier : ImageData) (item : HistoryEntry)
    (answer : jsstring) (now : Z) :
  imageBase64 s = Some earlier ->
  let awaited :=
    Gemini.solveLimitFromImage (answers answer)
      (base64 earlier) (mimeType earlier) in
  let s' := run B [SolveStart; SelectHistoryItem item;
                   SolveSettle earlier now awaited] s in
  problemState s'
  = {| image := Some (imageData item);
       displayUrl := Some (DataUrl (mimeType (imageData item))
                                   (base64 (imageData item))) |}
  /\ solution s' = Some answer
  /\ isLoading s' = false
  /\ history s'
     = insert_entry {| id := now; imageData := earlier;
                       problemSnippet := Snippet.extractSnippet answer;
                       fullSolution := answer |} (history s).
Proof.
  intros Himage awaited s'. subst s' awaited.
  unfold run. simpl. unfold handleSolve_start. rewrite Himage. by simpl.
Qed.

Lemma late_answer_lands_on_replaced_problem_witness :
  let awaited :=
    Gemini.solveLimitFromImage (answers (Js.lit "## $y$"))
      (base64 sample_image) (mimeType sample_image) in
  let item := {| id := 2; imageData := {| base64 := Js.lit "BBBB";
                                          mimeType := Js.lit "image/webp" |};
                 problemSnippet := Js.lit "$z$";
                 fullSolution := Js.lit "## $z$" |} in
  let s' := run lossy_browser
              [SolveStart; SelectHistoryItem item;
               SolveSettle sample_image 7 awaited] solved_page in
  imageBase64 solved_page = Some sample_image
  /\ problemState s'
     = {| image := Some (imageData item);
          displayUrl := Some (DataUrl (mimeType (imageData item))
                                      (base64 (imageData item))) |}
  /\ solution s' = Some (Js.lit "## $y$")
  /\ isLoading s' = false
  /\ history s'
     = insert_entry {| id := 7; imageData := sample_image;
                       problemSnippet := Snippet.extractSnippet (Js.lit "## $y$");
                       fullSolution := Js.lit "## $y$" |} (history solved_page).
Proof.
  assert (H : imageBase64 solved_page = Some sample_image) by reflexivity.
  split; [exact H|].
  exact (late_answer_lands_on_replaced_problem lossy_browser solved_page
           sample_image _ (Js.lit "## $y$") 7 H).
Defined.

(** X16. From the moment a request starts until it settles, the file
    input and the solve button are disabled and the panel shows the
    loader: no event but the settling of the request sets the loading
    flag back, whatever else is picked, cropped, selected or deleted. *)
Theorem controls_locked_until_settled
    (B : Browser) (events : list Event) (s : State) :
  isLoading s = true ->
  Forall (fun e => settles e = false) events ->
  let s' := run B events s in
  isLoading s' = true
  /\ fileInputDisabled s' = true
  /\ solveDisabled s' = true
  /\ solveOutcome s' = InProgress.
Proof.
  intros Hload Hev s'.
  assert (H : isLoading s' = true).
  { subst s'. revert s Hload.
    induction Hev as [|e events He _ IH]; intros s Hload; [done|].
    simpl. apply IH.
    destruct e as [[file|]| |ref| |generateContent now| |image now awaited|item|id0|];
      simpl in *; try done.
    - unfold handleImageChange.
      by destruct (imageUrl s), (uncroppedImageUrl s).
    - unfold handleCropConfirm.
      destruct (completedCrop s); [|done]. destruct ref; [|done].
      destruct (originalMimeType s) as [mime|]; [|done].
      destruct (Js.truthy mime); [|done].
      by destruct (getCroppedImg _ _ _ _ _) as [[[[payload url]|]|] st].
    - unfold handleSolve_start. by destruct (imageBase64 s). }
  unfold fileInputDisabled, solveDisabled, solveOutcome. rewrite H.
  repeat split. apply orb_true_r.
Qed.

Lemma controls_locked_until_settled_witness :
  let s := step lossy_browser SolveStart solved_page in
  let events := [SelectHistoryItem (sample_entry 2); DeleteHistoryEntry 1;
                 ClearHistory] in
  let s' := run lossy_browser events s in
  isLoading s = true
  /\ Forall (fun e => settles e = false) events
  /\ isLoading s' = true
  /\ fileInputDisabled s' = true
  /\ solveDisabled s' = true
  /\ solveOutcome s' = InProgress.
Proof.
  assert (H1 : isLoading (step lossy_browser SolveStart solved_page) = true)
    by reflexivity.
  assert (H2 : Forall (fun e => settles e = false)
                 [SelectHistoryItem (sample_entry 2); DeleteHistoryEntry 1;
                  ClearHistory]) by (by repeat constructor).
  do 2 (split; [assumption|]).
  exact (controls_locked_until_settled lossy_browser _ _ H1 H2).
Defined.

(** ** The theme *)

(** X17. The theme survives a reload: the initialiser reading the storage
    the theme effect wrote gives the same theme, whatever the system
    preference is; the effect puts the class [dark] on the root exactly
    for the dark theme and writes no other key; toggling twice gives the
    theme back. With no recognised value stored the system preference
    decides. *)
Theorem theme_survives_reload
    (theme : Theme) (storage : gmap jsstring jsstring) (prefers : bool) :
  initialTheme (Some {| localStorage := (themeEffect theme storage).2;
                        prefers_dark := prefers |}) = theme
  /\ ((themeEffect theme storage).1 = true <-> theme = Dark)
  /\ (forall key, key <> Js.lit "theme" ->
        (themeEffect theme storage).2 !! key = storage !! key)
  /\ toggleTheme (toggleTheme theme) = theme
  /\ toggleTheme theme <> theme
  /\ (storage !! Js.lit "theme" <> Some (Js.lit "dark") ->
      storage !! Js.lit "theme" <> Some (Js.lit "light") ->
      initialTheme (Some {| localStorage := storage; prefers_dark := prefers |})
      = if prefers then Dark else Light).
Proof.
  split.
  { unfold initialTheme, themeEffect. simpl. rewrite lookup_insert_eq.
    destruct theme; [|by rewrite bool_decide_eq_true_2].
    rewrite bool_decide_eq_false_2 by (by vm_compute).
    by rewrite bool_decide_eq_true_2. }
  split; [by destruct theme|]. split.
  { intros key Hkey. simpl. by rewrite lookup_insert_ne. }
  split; [by destruct theme|]. split; [by destruct theme|].
  intros Hd Hl. unfold initialTheme. simpl.
  by rewrite !bool_decide_eq_false_2.
Qed.

(** ** Copying the solution *)

(** X18. Without the content element copying does nothing. Where
    building the clipboard item or calling [clipboard.write] throws, the
    handler throws: no write, no fallback, no alert. Where the rich write
    is made and its promise rejects, the plain-text write is tried, with
    the text of the same element. The copied mark is set, and its reset
    scheduled, exactly when the rich write resolves or, failing that, the
    plain one does; the alert is raised exactly when both promises
    reject. Only the copied flag ever changes, and the timer sets it
    back. *)
Theorem copy_falls_back_then_alerts
    (content : option (jsstring * jsstring)) (rich plain : Write) (s : State) :
  let result := handleCopyToClipboard content rich plain s in
  let succeeds :=
    rich = WriteResolves \/ (rich = WriteRejects /\ plain = WriteResolves) in
  (content = None -> result = (s, []))
  /\ (forall html text, content = Some (html, text) ->
        (ClipboardWrite html text ∈ result.2 <-> rich <> WriteUnavailable)
        /\ (ClipboardWriteText text ∈ result.2 <->
            rich = WriteRejects /\ plain <> WriteUnavailable)
        /\ (forall other, ClipboardWriteText other ∈ result.2 -> other = text)
        /\ (Alert copy_failure ∈ result.2 <->
            rich = WriteRejects /\ plain = WriteRejects)
        /\ (Uncaught ∈ result.2 <->
            rich = WriteUnavailable
            \/ (rich = WriteRejects /\ plain = WriteUnavailable))
        /\ (ResetCopiedAfter 2500 ∈ result.2 <-> succeeds)
        /\ (succeeds -> result.1 = setIsCopied true s)
        /\ (~ succeeds -> result.1 = s))
  /\ copiedTimeout result.1 = setIsCopied false s.
Proof.
  intros result succeeds. subst result succeeds.
  destruct content as [[html text]|]; simpl.
  - split; [done|]. split; [|by destruct rich, plain, s].
    intros ? ? [= <- <-].
    destruct rich, plain; simpl; repeat split; intros;
      repeat match goal with
             | H : _ ∈ _ :: _ |- _ => apply elem_of_cons in H as [H|H]
             | H : _ ∈ [] |- _ => by apply elem_of_nil in H
             | H : _ /\ _ |- _ => destruct H
             | H : _ \/ _ |- _ => destruct H
             end; try done; try congruence; try (exfalso; tauto);
      try set_solver.
  - split; [done|]. split; [done|]. by destruct s.
Qed.

(** ** The history gives back what was solved *)

(** X19. The entry a successful solve puts in front of the history, when
    selected later on any page, brings back the image that was solved, as
    a data URL of that image, and the answer as the solution, with no
    error, and leaves the history as it is. *)
Theorem selecting_recorded_entry_restores_it
    (s later : State) (solved : ImageData) (answer : jsstring) (now : Z)
    (entry : HistoryEntry) :
  imageBase64 s = Some solved ->
  history (handleSolve (answers answer) now s) !! 0 = Some entry ->
  let s' := handleSelectHistoryItem entry later in
  imageBase64 s' = Some solved
  /\ imageUrl s' = Some (DataUrl (mimeType solved) (base64 solved))
  /\ solution s' = Some answer
  /\ error s' = None
  /\ history s' = history later.
Proof.
  intros Himage Hentry s'. subst s'.
  unfold handleSolve, handleSolve_start in Hentry. rewrite Himage in Hentry.
  simpl in Hentry. injection Hentry as <-. by simpl.
Qed.

Lemma selecting_recorded_entry_restores_it_witness :
  let entry := {| id := 7; imageData := sample_image;
                  problemSnippet := Snippet.extractSnippet (Js.lit "## $y$");
                  fullSolution := Js.lit "## $y$" |} in
  let s' := handleSelectHistoryItem entry initial in
  imageBase64 solved_page = Some sample_image
  /\ history (handleSolve (answers (Js.lit "## $y$")) 7 solved_page) !! 0
     = Some entry
  /\ imageBase64 s' = Some sample_image
  /\ imageUrl s' = Some (DataUrl (mimeType sample_image) (base64 sample_image))
  /\ solution s' = Some (Js.lit "## $y$")
  /\ error s' = None
  /\ history s' = history initial.
Proof.
  assert (H1 : imageBase64 solved_page = Some sample_image) by reflexivity.
  assert (H2 : history (handleSolve (answers (Js.lit "## $y$")) 7 solved_page) !! 0
               = Some {| id := 7; imageData := sample_image;
                         problemSnippet :=
                           Snippet.extractSnippet (Js.lit "## $y$");
                         fullSolution := Js.lit "## $y$" |}) by reflexivity.
  do 2 (split; [assumption|]).
  exact (selecting_recorded_entry_restores_it solved_page initial sample_image
           (Js.lit "## $y$") 7 _ H1 H2).
Defined.

(** X20. A stored log is taken as it parses, however long: loading does
    not cut it to 20 entries. The first successful solve afterwards does,
    leaving the new entry and the first 19 stored ones. *)
Theorem stored_log_cut_at_first_insert
    (B : Browser) (stored : jsstring) (parsed : list HistoryEntry)
    (image : ImageData) (now : Z) (result : jsstring) :
  stored <> [] ->
  JSON_parse B stored = ParsedEntries parsed ->
  let s := startup B (GetItemReturns (Some stored)) in
  let entry := {| id := now; imageData := image;
                  problemSnippet := Snippet.extractSnippet result;
                  fullSolution := result |} in
  history s = parsed
  /\ history (handleSolve_settle image now (Resolved (Some result)) s)
     = entry :: take 19 parsed
  /\ length (history (handleSolve_settle image now (Resolved (Some result)) s))
     = Nat.min 20 (S (length parsed)).
Proof.
  intros Hne Hparse s entry.
  assert (Hs : history s = parsed).
  { subst s. unfold startup, mount, loadHistory, loadHistory_try.
    destruct stored as [|unit rest]; [done|].
    cbn [Js.truthy negb]. rewrite Hparse. reflexivity. }
  split; [done|]. simpl. rewrite Hs. split; [done|].
  unfold insert_entry. rewrite length_take. simpl. lia.
Qed.

Lemma stored_log_cut_at_first_insert_witness :
  let B := {| devicePixelRatio := None; context2d := true;
              serialize := serialize lossy_browser;
              btoa := btoa lossy_browser;
              JSON_parse := fun _ => ParsedEntries (List.map sample_entry
                                             (List.map Z.of_nat (seq 1 25))) |} in
  let parsed := List.map sample_entry (List.map Z.of_nat (seq 1 25)) in
  let s := startup B (GetItemReturns (Some (Js.lit "[...]"))) in
  let entry := {| id := 99; imageData := sample_image;
                  problemSnippet := Snippet.extractSnippet (Js.lit "## $y$");
                  fullSolution := Js.lit "## $y$" |} in
  Js.lit "[...]" <> []
  /\ JSON_parse B (Js.lit "[...]") = ParsedEntries parsed
  /\ history s = parsed
  /\ history (handleSolve_settle sample_image 99 (Resolved (Some (Js.lit "## $y$"))) s)
     = entry :: take 19 parsed
  /\ length (history (handleSolve_settle sample_image 99
                        (Resolved (Some (Js.lit "## $y$"))) s))
     = Nat.min 20 (S (length parsed)).
Proof.
  assert (H1 : Js.lit "[...]" <> []) by (by vm_compute).
  split; [exact H1|]. split; [reflexivity|].
  exact (stored_log_cut_at_first_insert
           {| devicePixelRatio := None; context2d := true;
              serialize := serialize lossy_browser;
              btoa := btoa lossy_browser;
              JSON_parse := fun _ => ParsedEntries (List.map sample_entry
                                             (List.map Z.of_nat (seq 1 25))) |}
           (Js.lit "[...]") _ sample_image 99 (Js.lit "## $y$") H1 eq_refl).
Defined.
